(** * The command queue of the Roblox Studio MCP bridge

    A shallow embedding of [src/command-queue.ts] (class [CommandQueue]) and of
    the interfaces of [src/types.ts] it works on, followed by the properties
    the broker specification states about them.

    Conventions of the embedding.
    - Times are milliseconds since the epoch, as [Date.now()] returns them;
      they are integers, modelled in [Z].  Every call of [Date.now()] in the
      source is an explicit argument of the operation that makes it.
    - [uuidv4()] is an argument too: the identifier it returned.
    - A promise is named by its allocation index.  The two closures
      [resolve]/[reject] a [PendingCommand] carries are the settling functions
      of one promise; calling one of them is recorded in the list [calls].
    - [Map<string, PendingCommand>] is an association list in insertion order,
      which is the order a JavaScript [Map] iterates in. *)

From Stdlib Require Import List Ascii String ZArith Bool Arith Lia DecimalString Permutation Sorted.
Import ListNotations.

Local Open Scope Z_scope.

(** ** Interfaces of [types.ts] *)

(** [Record<string, unknown>]: the queue never looks inside; keys with their
    serialised values. *)
Definition Params : Type := list (string * string).

Module CommandResult.
Record t : Type := mk {
  id : string;
  success : bool;
  data : option string;
  error : option string
}.
End CommandResult.

Module SerializedCommand.
Record t : Type := mk {
  id : string;
  type : string;
  params : Params
}.
End SerializedCommand.

Module PendingCommand.
Record t : Type := mk {
  id : string;
  type : string;
  params : Params;
  (** the promise whose [resolve] and [reject] closures the command holds *)
  promise : nat;
  createdAt : Z
}.
End PendingCommand.

Module ConnectionState.
Record t : Type := mk {
  connected : bool;
  lastHeartbeat : Z;
  pluginVersion : option string;
  studioSessionId : option string
}.
End ConnectionState.

Record QueueConfig : Type := mkConfig {
  commandTimeoutMs : Z;
  heartbeatTimeoutMs : Z
}.

(** [DEFAULT_BRIDGE_CONFIG], the two fields the queue reads. *)
Definition DEFAULT_BRIDGE_CONFIG : QueueConfig :=
  {| commandTimeoutMs := 30000; heartbeatTimeoutMs := 10000 |}.

(** A JavaScript [Error]: its message. *)
Record Error : Type := mkError { message : string }.

(** ** [Map<string, V>] in insertion order *)

Module JsMap.
Section Ops.
Context {V : Type}.

Definition t : Type := list (string * V).

Definition empty : t := [].

Fixpoint get (k : string) (m : t) : option V :=
  match m with
  | [] => None
  | (k', v) :: rest => if String.eqb k k' then Some v else get k rest
  end.

(** A key that is present keeps its place, a new key goes last. *)
Fixpoint set (k : string) (v : V) (m : t) : t :=
  match m with
  | [] => [(k, v)]
  | (k', v') :: rest =>
      if String.eqb k k' then (k, v) :: rest else (k', v') :: set k v rest
  end.

Definition delete (k : string) (m : t) : t :=
  filter (fun e => negb (String.eqb k (fst e))) m.

Definition size (m : t) : nat := List.length m.

Definition keys (m : t) : list string := map fst m.

Definition values (m : t) : list V := map snd m.
End Ops.
Arguments t : clear implicits.
End JsMap.

(** ** The class [CommandQueue] *)

(** The handle [setInterval] returns: the timer that runs the sweep. *)
Record Interval : Type := mkInterval { periodMs : Z }.

Record CommandQueue : Type := mkQueue {
  waitingQueue : list PendingCommand.t;
  pendingCommands : JsMap.t PendingCommand.t;
  connectionState : ConnectionState.t;
  timeoutInterval : option Interval;
  config : QueueConfig
}.

(** What a call of a promise's settling function looks like from outside. *)
Inductive Call : Type :=
| CallResolve (p : nat) (result : CommandResult.t)
| CallReject (p : nat) (err : Error).

(** The queue together with the part of the runtime it acts on: how many
    promises [enqueue] has created, and the calls made so far, oldest first. *)
Record Runtime : Type := mkRuntime {
  queue : CommandQueue;
  promiseCount : nat;
  calls : list Call
}.

Definition setWaitingQueue (ws : list PendingCommand.t) (q : CommandQueue) : CommandQueue :=
  {| waitingQueue := ws;
     pendingCommands := pendingCommands q;
     connectionState := connectionState q;
     timeoutInterval := timeoutInterval q;
     config := config q |}.

Definition setPendingCommands (m : JsMap.t PendingCommand.t) (q : CommandQueue) : CommandQueue :=
  {| waitingQueue := waitingQueue q;
     pendingCommands := m;
     connectionState := connectionState q;
     timeoutInterval := timeoutInterval q;
     config := config q |}.

Definition setConnectionState (c : ConnectionState.t) (q : CommandQueue) : CommandQueue :=
  {| waitingQueue := waitingQueue q;
     pendingCommands := pendingCommands q;
     connectionState := c;
     timeoutInterval := timeoutInterval q;
     config := config q |}.

Definition setTimeoutInterval (i : option Interval) (q : CommandQueue) : CommandQueue :=
  {| waitingQueue := waitingQueue q;
     pendingCommands := pendingCommands q;
     connectionState := connectionState q;
     timeoutInterval := i;
     config := config q |}.

Definition withQueue (f : CommandQueue -> CommandQueue) (w : Runtime) : Runtime :=
  {| queue := f (queue w); promiseCount := promiseCount w; calls := calls w |}.

Definition call (c : Call) (w : Runtime) : Runtime :=
  {| queue := queue w; promiseCount := promiseCount w; calls := calls w ++ [c] |}.

(** [cmd.resolve(result)] and [cmd.reject(err)]. *)
Definition callResolve (cmd : PendingCommand.t) (result : CommandResult.t) : Runtime -> Runtime :=
  call (CallResolve (PendingCommand.promise cmd) result).

Definition callReject (cmd : PendingCommand.t) (err : Error) : Runtime -> Runtime :=
  call (CallReject (PendingCommand.promise cmd) err).

(** *** Error messages *)

Definition notConnectedError : Error :=
  mkError "Roblox Studio plugin is not connected. Open Studio and ensure the MCP Bridge plugin is running.".

(** [`${n}`] for an integer [n]. *)
Definition numberToString (n : Z) : string := NilZero.string_of_int (Z.to_int n).

Definition neverPickedUpError (cfg : QueueConfig) (cmd : PendingCommand.t) : Error :=
  mkError ("Command '" ++ PendingCommand.type cmd ++ "' timed out after "
           ++ numberToString (commandTimeoutMs cfg) ++ "ms — plugin never picked it up")%string.

Definition noResultError (cfg : QueueConfig) (cmd : PendingCommand.t) : Error :=
  mkError ("Command '" ++ PendingCommand.type cmd ++ "' timed out after "
           ++ numberToString (commandTimeoutMs cfg) ++ "ms — plugin did not return a result")%string.

Definition shuttingDownError : Error := mkError "MCP server shutting down".

(** *** Construction *)

(** [startTimeoutSweep]: [setInterval(sweep, 1000)]. *)
Definition startTimeoutSweep (q : CommandQueue) : CommandQueue :=
  setTimeoutInterval (Some (mkInterval 1000)) q.

(** [new CommandQueue(config)]: the field initialisers, then the constructor. *)
Definition newCommandQueue (cfg : QueueConfig) : CommandQueue :=
  startTimeoutSweep
    {| waitingQueue := [];
       pendingCommands := JsMap.empty;
       connectionState := ConnectionState.mk false 0 None None;
       timeoutInterval := None;
       config := cfg |}.

Definition start (cfg : QueueConfig) : Runtime :=
  {| queue := newCommandQueue cfg; promiseCount := 0; calls := [] |}.

(** *** [isConnected], [heartbeat] *)

Definition isConnected (q : CommandQueue) (now : Z) : bool :=
  if negb (ConnectionState.connected (connectionState q)) then false
  else
    let elapsed := now - ConnectionState.lastHeartbeat (connectionState q) in
    elapsed <? heartbeatTimeoutMs (config q).

Definition heartbeat (now : Z) (pluginVersion studioSessionId : option string)
    (q : CommandQueue) : CommandQueue :=
  setConnectionState
    {| ConnectionState.connected := true;
       ConnectionState.lastHeartbeat := now;
       ConnectionState.pluginVersion := pluginVersion;
       ConnectionState.studioSessionId := studioSessionId |} q.

Definition getConnectionState (q : CommandQueue) (now : Z) : ConnectionState.t :=
  {| ConnectionState.connected := isConnected q now;
     ConnectionState.lastHeartbeat := ConnectionState.lastHeartbeat (connectionState q);
     ConnectionState.pluginVersion := ConnectionState.pluginVersion (connectionState q);
     ConnectionState.studioSessionId := ConnectionState.studioSessionId (connectionState q) |}.

Record Stats : Type := mkStats {
  waitingCount : nat;
  pendingCount : nat;
  connected : bool
}.

Definition getStats (q : CommandQueue) (now : Z) : Stats :=
  {| waitingCount := List.length (waitingQueue q);
     pendingCount := JsMap.size (pendingCommands q);
     connected := isConnected q now |}.

(** *** [enqueue] *)

(** The promise [enqueue] returns: one already rejected, or the one the new
    command settles later. *)
Inductive Future : Type :=
| AlreadyRejected (err : Error)
| Awaiting (p : nat).

(** [nowCheck] is the clock read by [isConnected], [uuid] the value of
    [uuidv4()], [nowCreated] the clock read for [createdAt]. *)
Definition enqueue (type : string) (params : Params)
    (nowCheck : Z) (uuid : string) (nowCreated : Z) (w : Runtime) : Future * Runtime :=
  if negb (isConnected (queue w) nowCheck) then (AlreadyRejected notConnectedError, w)
  else
    let p := promiseCount w in
    let command :=
      {| PendingCommand.id := uuid;
         PendingCommand.type := type;
         PendingCommand.params := params;
         PendingCommand.promise := p;
         PendingCommand.createdAt := nowCreated |} in
    (Awaiting p,
     {| queue := setWaitingQueue (waitingQueue (queue w) ++ [command]) (queue w);
        promiseCount := S p;
        calls := calls w |}).

(** *** [dequeue] *)

Definition serialize (command : PendingCommand.t) : SerializedCommand.t :=
  {| SerializedCommand.id := PendingCommand.id command;
     SerializedCommand.type := PendingCommand.type command;
     SerializedCommand.params := PendingCommand.params command |}.

Definition dequeue (w : Runtime) : option SerializedCommand.t * Runtime :=
  match waitingQueue (queue w) with
  | [] => (None, w)
  | command :: rest =>
      (Some (serialize command),
       withQueue (fun q =>
         setPendingCommands
           (JsMap.set (PendingCommand.id command) command (pendingCommands q))
           (setWaitingQueue rest q)) w)
  end.

(** *** [resolve] *)

Definition resolve (result : CommandResult.t) (w : Runtime) : bool * Runtime :=
  match JsMap.get (CommandResult.id result) (pendingCommands (queue w)) with
  | None => (false, w)
  | Some command =>
      (true,
       callResolve command result
         (withQueue (fun q =>
            setPendingCommands (JsMap.delete (CommandResult.id result) (pendingCommands q)) q) w))
  end.

(** *** The timeout sweep: the callback [startTimeoutSweep] installs *)

Definition expired (cfg : QueueConfig) (now : Z) (cmd : PendingCommand.t) : bool :=
  now - PendingCommand.createdAt cmd >? commandTimeoutMs cfg.

(** [for (const cmd of cmds) cmd.reject(err(cmd))] *)
Fixpoint rejectEach (err : PendingCommand.t -> Error) (cmds : list PendingCommand.t)
    (w : Runtime) : Runtime :=
  match cmds with
  | [] => w
  | cmd :: rest => rejectEach err rest (callReject cmd (err cmd) w)
  end.

(** The loop over the pending map; [entries] is what is left to visit.
    Deleting the entry being visited leaves the later ones in place. *)
Fixpoint sweepPending (now : Z) (entries : list (string * PendingCommand.t))
    (w : Runtime) : Runtime :=
  match entries with
  | [] => w
  | (id, cmd) :: rest =>
      if expired (config (queue w)) now cmd then
        sweepPending now rest
          (callReject cmd (noResultError (config (queue w)) cmd)
             (withQueue (fun q =>
                setPendingCommands (JsMap.delete id (pendingCommands q)) q) w))
      else sweepPending now rest w
  end.

Definition sweep (now : Z) (w : Runtime) : Runtime :=
  let cfg := config (queue w) in
  let expiredWaiting := filter (expired cfg now) (waitingQueue (queue w)) in
  let w1 :=
    withQueue (fun q =>
      setWaitingQueue (filter (fun cmd => negb (expired cfg now cmd)) (waitingQueue q)) q) w in
  let w2 := rejectEach (neverPickedUpError cfg) expiredWaiting w1 in
  sweepPending now (pendingCommands (queue w2)) w2.

(** *** [shutdown] *)

Definition shutdown (w : Runtime) : Runtime :=
  let w1 := withQueue (setTimeoutInterval None) w in
  let w2 := rejectEach (fun _ => shuttingDownError) (waitingQueue (queue w1)) w1 in
  let w3 := withQueue (setWaitingQueue []) w2 in
  let w4 := rejectEach (fun _ => shuttingDownError) (JsMap.values (pendingCommands (queue w3))) w3 in
  withQueue (setPendingCommands JsMap.empty) w4.

(** ** Runs of the broker *)

(** What can happen to a queue after its construction: a call of one of its
    methods, or the interval timer firing.  The timer fires only while
    [timeoutInterval] holds it; after [clearInterval] the callback never runs. *)
Inductive Op : Type :=
| OpEnqueue (type : string) (params : Params) (nowCheck : Z) (uuid : string) (nowCreated : Z)
| OpDequeue
| OpResolve (result : CommandResult.t)
| OpHeartbeat (now : Z) (pluginVersion studioSessionId : option string)
| OpTick (now : Z)
| OpShutdown.

Definition step (w : Runtime) (o : Op) : Runtime :=
  match o with
  | OpEnqueue type params nowCheck uuid nowCreated =>
      snd (enqueue type params nowCheck uuid nowCreated w)
  | OpDequeue => snd (dequeue w)
  | OpResolve result => snd (resolve result w)
  | OpHeartbeat now pluginVersion studioSessionId =>
      withQueue (heartbeat now pluginVersion studioSessionId) w
  | OpTick now =>
      match timeoutInterval (queue w) with
      | Some _ => sweep now w
      | None => w
      end
  | OpShutdown => shutdown w
  end.

Definition run (w : Runtime) (t : list Op) : Runtime := fold_left step t w.

(** The identifiers [uuidv4()] hands out along a run. *)
Fixpoint uuids (t : list Op) : list string :=
  match t with
  | [] => []
  | OpEnqueue _ _ _ uuid _ :: rest => uuid :: uuids rest
  | _ :: rest => uuids rest
  end.

(** The time of the latest heartbeat of a run, if there was one. *)
Fixpoint latestHeartbeat (seen : option Z) (t : list Op) : option Z :=
  match t with
  | [] => seen
  | OpHeartbeat now _ _ :: rest => latestHeartbeat (Some now) rest
  | _ :: rest => latestHeartbeat seen rest
  end.

(** ** Counting *)

Definition callPromise (c : Call) : nat :=
  match c with
  | CallResolve p _ => p
  | CallReject p _ => p
  end.

(** How often the settling functions of promise [p] were called. *)
Definition fired (p : nat) (cs : list Call) : nat :=
  List.length (filter (fun c => Nat.eqb (callPromise c) p) cs).

(** How many commands of a collection hold the settling functions of [p]. *)
Definition held (p : nat) (cmds : list PendingCommand.t) : nat :=
  List.length (filter (fun c => Nat.eqb (PendingCommand.promise c) p) cmds).

Definition inWaiting (p : nat) (w : Runtime) : nat :=
  held p (waitingQueue (queue w)).

Definition inPending (p : nat) (w : Runtime) : nat :=
  held p (JsMap.values (pendingCommands (queue w))).

(** Where promise [p] stands: the commands that hold it, plus the calls made
    on it. *)
Definition total (p : nat) (w : Runtime) : nat :=
  (inWaiting p w + inPending p w + fired p (calls w))%nat.

(** The commands the queue still owns. *)
Definition liveCommands (w : Runtime) : list PendingCommand.t :=
  waitingQueue (queue w) ++ JsMap.values (pendingCommands (queue w)).

(** Their identifiers. *)
Definition liveIds (w : Runtime) : list string := map PendingCommand.id (liveCommands w).

Definition rejectionOf (err : PendingCommand.t -> Error) (cmd : PendingCommand.t) : Call :=
  CallReject (PendingCommand.promise cmd) (err cmd).

(** The calls an operation can be the origin of: [resolve] passes its result
    to the resolving function, the sweep rejects with one of its two timeout
    errors, [shutdown] rejects with its own error. *)
Definition explains (cfg : QueueConfig) (o : Op) (c : Call) : Prop :=
  match o, c with
  | OpResolve result, CallResolve _ result' => result' = result
  | OpTick _, CallReject _ err =>
      exists cmd, err = neverPickedUpError cfg cmd \/ err = noResultError cfg cmd
  | OpShutdown, CallReject _ err => err = shuttingDownError
  | _, _ => False
  end.

(** The last character of a string. *)
Fixpoint lastChar (s : string) : option Ascii.ascii :=
  match s with
  | EmptyString => None
  | String c EmptyString => Some c
  | String _ rest => lastChar rest
  end.

(** ** Well-formedness *)

(** A [Map] holds a key once. *)
Definition wfMap {V : Type} (m : JsMap.t V) : Prop := NoDup (JsMap.keys m).

(** Every entry of the pending map sits under its command's own identifier,
    and no two commands the queue owns share an identifier. *)
Record wfQueue (w : Runtime) : Prop := {
  wf_keys : wfMap (pendingCommands (queue w));
  wf_own : forall k c, In (k, c) (pendingCommands (queue w)) -> k = PendingCommand.id c;
  wf_ids : NoDup (map PendingCommand.id (liveCommands w))
}.

(** ** The two accounts of a promise *)

(** Whatever identifiers [uuidv4()] returns, no promise is ever accounted for
    more than once, and none before [enqueue] has created it. *)
Record AtMostOnce (w : Runtime) : Prop := {
  amo_map : wfMap (pendingCommands (queue w));
  amo_total : forall p, (total p w <= 1)%nat;
  amo_unborn : forall p, (promiseCount w <= p)%nat -> total p w = 0%nat
}.

(** Every promise [enqueue] has created is accounted for once: by the one
    command that holds it, or by the one call made on it. *)
Record ExactlyOnce (w : Runtime) : Prop := {
  eo_queue : wfQueue w;
  eo_amo : AtMostOnce w;
  eo_total : forall p, (p < promiseCount w)%nat -> total p w = 1%nat
}.

(** ** The promise a caller awaits *)

(** A promise is settled by the first call of one of its settling functions;
    later calls are ignored by the promise. *)
Fixpoint settlement (p : nat) (cs : list Call) : option Call :=
  match cs with
  | [] => None
  | c :: rest => if Nat.eqb (callPromise c) p then Some c else settlement p rest
  end.

(** What [await] on a future gives: the value it was resolved with, or the
    error thrown. *)
Inductive Outcome : Type :=
| Fulfilled (result : CommandResult.t)
| Thrown (err : Error).

(** [await future], given the calls made so far: [None] while pending. *)
Definition await (future : Future) (cs : list Call) : option Outcome :=
  match future with
  | AlreadyRejected err => Some (Thrown err)
  | Awaiting p =>
      match settlement p cs with
      | None => None
      | Some (CallResolve _ result) => Some (Fulfilled result)
      | Some (CallReject _ err) => Some (Thrown err)
      end
  end.

(** ** [executeCommand] of [mcp-server.ts] *)

(** The [text] of each item of [content]; every item has type ["text"]. *)
Record ToolResult : Type := mkToolResult { content : list string }.

(** [`${result.error}`]: a missing field prints as [undefined]. *)
Definition errorFieldText (error : option string) : string :=
  match error with
  | Some e => e
  | None => "undefined"
  end.

Definition pluginErrorText (result : CommandResult.t) : string :=
  ("Error from Studio plugin: " ++ errorFieldText (CommandResult.error result))%string.

(** Every error the queue rejects with is an [Error]: the message is used. *)
Definition bridgeErrorText (err : Error) : string :=
  ("Bridge error: " ++ message err)%string.

Section ExecuteCommand.
(** [JSON.stringify(data, null, 2)], which the queue's code does not define. *)
Variable stringify : option string -> string.

(** The body of the [try] after [await], and the [catch]. *)
Definition formatOutcome (o : Outcome) : ToolResult :=
  match o with
  | Fulfilled result =>
      if CommandResult.success result
      then mkToolResult [stringify (CommandResult.data result)]
      else mkToolResult [pluginErrorText result]
  | Thrown err => mkToolResult [bridgeErrorText err]
  end.

(** [executeCommand(queue, type, params)]: it enqueues, and what it returns
    once the future is settled is a function of the calls made by then. *)
Definition executeCommand (type : string) (params : Params)
    (nowCheck : Z) (uuid : string) (nowCreated : Z) (w : Runtime)
    : (list Call -> option ToolResult) * Runtime :=
  let r := enqueue type params nowCheck uuid nowCreated w in
  (fun cs => option_map formatOutcome (await (fst r) cs), snd r).
End ExecuteCommand.

(** ** The routes of [HttpBridge] *)

(** The JSON body of [POST /result] as it arrives: nothing has checked that
    [id] is there. *)
Module ResultBody.
Record t : Type := mk {
  id : option string;
  success : bool;
  data : option string;
  error : option string
}.
End ResultBody.

(** The JSON body of [POST /heartbeat]. *)
Module HeartbeatBody.
Record t : Type := mk {
  pluginVersion : option string;
  studioSessionId : option string
}.
End HeartbeatBody.

(** What the routes send. *)
Inductive Json : Type :=
| JsonCommand (command : SerializedCommand.t)
| JsonStatusOk
| JsonError (error : string)
| JsonHeartbeat (stats : Stats)
| JsonHealth (uptime : Z) (connection : ConnectionState.t) (stats : Stats).

Record Response : Type := mkResponse {
  status : nat;
  body : option Json
}.

(** [res.json(x)] answers 200. *)
Definition json (x : Json) : Response := mkResponse 200 (Some x).




(** [GET /health]; the three clock reads in the order the object literal
    makes them. *)
Definition healthRoute (startTime nowUptime nowConnection nowStats : Z)
    (w : Runtime) : Response :=
  json (JsonHealth (nowUptime - startTime)
          (getConnectionState (queue w) nowConnection)
          (getStats (queue w) nowStats)).

(** ** The port override of [index.ts] *)

(** A JavaScript string: its UTF-16 code units. *)
Definition JsString : Type := list N.

(** [WhiteSpace] and [LineTerminator] of ECMAScript, which [parseInt] skips. *)
Definition isStrWhiteSpaceChar (c : N) : bool :=
  (N.eqb c 9 || N.eqb c 10 || N.eqb c 11 || N.eqb c 12 || N.eqb c 13 || N.eqb c 32 ||
   N.eqb c 160 || N.eqb c 5760 || (N.leb 8192 c && N.leb c 8202) ||
   N.eqb c 8232 || N.eqb c 8233 || N.eqb c 8239 || N.eqb c 8287 ||
   N.eqb c 12288 || N.eqb c 65279)%N%bool.

Fixpoint trimStart (s : JsString) : JsString :=
  match s with
  | c :: rest => if isStrWhiteSpaceChar c then trimStart rest else s
  | [] => []
  end.

Definition digitValue (c : N) : option Z :=
  if (N.leb 48 c && N.leb c 57)%N%bool then Some (Z.of_N c - 48) else None.

(** The value of the longest prefix of decimal digits, after [acc], and
    whether there was a digit at all. *)
Fixpoint parseDigits (acc : Z) (seen : bool) (s : JsString) : Z * bool :=
  match s with
  | c :: rest =>
      match digitValue c with
      | Some d => parseDigits (10 * acc + d) true rest
      | None => (acc, seen)
      end
  | [] => (acc, seen)
  end.

(** [parseInt(s, 10)]; [None] is [NaN]. *)
Definition parseInt10 (s : JsString) : option Z :=
  let s1 := trimStart s in
  let (sign, s2) :=
    match s1 with
    | c :: rest =>
        if N.eqb c 45 then (-1, rest)
        else if N.eqb c 43 then (1, rest)
        else (1, s1)
    | [] => (1, s1)
    end in
  let (value, seen) := parseDigits 0 false s2 in
  if seen then Some (sign * value) else None.

(** [DEFAULT_BRIDGE_CONFIG.port] *)
Definition DEFAULT_BRIDGE_PORT : Z := 3001.

(** [config.port] once [main] has looked at [process.env.MCP_BRIDGE_PORT]. *)
Definition bridgePort (env : option JsString) : Z :=
  match env with
  | None => DEFAULT_BRIDGE_PORT
  | Some [] => DEFAULT_BRIDGE_PORT
  | Some s =>
      match parseInt10 s with
      | Some port =>
          if ((0 <? port) && (port <? 65536))%bool then port else DEFAULT_BRIDGE_PORT
      | None => DEFAULT_BRIDGE_PORT
      end
  end.

(** * Properties *)

(** ** The map operations *)

Section JsMapFacts.
Context {V : Type}.
Implicit Types (m : JsMap.t V) (k : string) (v : V).

Lemma get_none_iff k m : JsMap.get k m = None <-> ~ In k (JsMap.keys m).
Proof.
  induction m as [|[k' v'] m IH]; simpl.
  - tauto.
  - destruct (String.eqb_spec k k') as [->|Hne].
    + split; [discriminate | intros H; exfalso; apply H; now left].
    + rewrite IH. split.
      * intros H [E|HI]; [congruence | tauto].
      * intros H HI. apply H. now right.
Qed.

Lemma get_some_in k v m : JsMap.get k m = Some v -> In (k, v) m.
Proof.
  induction m as [|[k' v'] m IH]; simpl; [discriminate|].
  destruct (String.eqb_spec k k') as [->|Hne].
  - intros [= ->]. now left.
  - intros H. right. now apply IH.
Qed.

Lemma get_split k v m :
  JsMap.get k m = Some v ->
  exists pre rest, m = pre ++ (k, v) :: rest /\ ~ In k (JsMap.keys pre).
Proof.
  induction m as [|[k' v'] m IH]; simpl; [discriminate|].
  destruct (String.eqb_spec k k') as [->|Hne].
  - intros [= ->]. exists [], m. split; [reflexivity | intros []].
  - intros H. destruct (IH H) as (pre & rest & -> & Hpre).
    exists ((k', v') :: pre), rest. split; [reflexivity|].
    simpl. intros [E|HI]; [congruence | tauto].
Qed.

Lemma delete_absent k m : ~ In k (JsMap.keys m) -> JsMap.delete k m = m.
Proof.
  induction m as [|[k' v'] m IH]; simpl; [reflexivity|].
  intros H. destruct (String.eqb_spec k k') as [->|Hne]; simpl.
  - exfalso. apply H. now left.
  - f_equal. apply IH. tauto.
Qed.

Lemma keys_app m1 m2 : JsMap.keys (m1 ++ m2) = JsMap.keys m1 ++ JsMap.keys m2.
Proof. apply map_app. Qed.

Lemma values_app m1 m2 : JsMap.values (m1 ++ m2) = JsMap.values m1 ++ JsMap.values m2.
Proof. apply map_app. Qed.

Lemma delete_app k m1 m2 :
  JsMap.delete k (m1 ++ m2) = JsMap.delete k m1 ++ JsMap.delete k m2.
Proof. apply filter_app. Qed.

(** Deleting the key of an entry of a well-formed map removes that entry
    and nothing else. *)
Lemma delete_entry k v pre rest :
  wfMap (pre ++ (k, v) :: rest) ->
  JsMap.delete k (pre ++ (k, v) :: rest) = pre ++ rest.
Proof.
  unfold wfMap. rewrite keys_app. simpl. intros H.
  apply NoDup_remove_2 in H. rewrite in_app_iff in H.
  rewrite delete_app. simpl. rewrite String.eqb_refl. simpl.
  rewrite !delete_absent by tauto. reflexivity.
Qed.

Lemma delete_keys_incl k m x : In x (JsMap.delete k m) -> In x m.
Proof. unfold JsMap.delete. rewrite filter_In. tauto. Qed.

Lemma wfMap_delete k m : wfMap m -> wfMap (JsMap.delete k m).
Proof.
  unfold wfMap. induction m as [|[k' v'] m IH]; simpl; [trivial|].
  intros H. inversion H as [|? ? Hn Hd]; subst.
  destruct (String.eqb k k'); simpl; [now apply IH|].
  constructor; [|now apply IH].
  intros HI. apply Hn. apply in_map_iff in HI as ([k2 v2] & <- & HI).
  apply delete_keys_incl in HI. apply in_map_iff. now exists (k2, v2).
Qed.

Lemma get_delete k m : JsMap.get k (JsMap.delete k m) = None.
Proof.
  apply get_none_iff. intros HI. apply in_map_iff in HI as ([k2 v2] & E & HI).
  simpl in E. subst k2. unfold JsMap.delete in HI. apply filter_In in HI as [_ HI].
  simpl in HI. now rewrite String.eqb_refl in HI.
Qed.

Lemma set_fresh k v m : ~ In k (JsMap.keys m) -> JsMap.set k v m = m ++ [(k, v)].
Proof.
  induction m as [|[k' v'] m IH]; simpl; [reflexivity|].
  intros H. destruct (String.eqb_spec k k') as [->|Hne].
  - exfalso. apply H. now left.
  - f_equal. apply IH. tauto.
Qed.

Lemma keys_set_present k v m : In k (JsMap.keys m) -> JsMap.keys (JsMap.set k v m) = JsMap.keys m.
Proof.
  induction m as [|[k' v'] m IH]; simpl; [intros []|].
  destruct (String.eqb_spec k k') as [->|Hne]; simpl; [reflexivity|].
  intros [E|HI]; [congruence|]. f_equal. now apply IH.
Qed.

Lemma wfMap_set k v m : wfMap m -> wfMap (JsMap.set k v m).
Proof.
  unfold wfMap. intros H.
  destruct (in_dec string_dec k (JsMap.keys m)) as [HI|HI].
  - now rewrite keys_set_present.
  - rewrite set_fresh, keys_app by assumption. simpl.
    apply NoDup_app; [assumption | repeat constructor; intros [] |].
    intros x Hx [<-|[]]. contradiction.
Qed.

Lemma wfMap_empty : wfMap (@JsMap.empty V).
Proof. constructor. Qed.
End JsMapFacts.

(** ** Counting calls and commands *)

Lemma fired_app p a b : fired p (a ++ b) = (fired p a + fired p b)%nat.
Proof. unfold fired. now rewrite filter_app, length_app. Qed.

Lemma held_app p a b : held p (a ++ b) = (held p a + held p b)%nat.
Proof. unfold held. now rewrite filter_app, length_app. Qed.

Lemma held_one p c : held p [c] = if Nat.eqb (PendingCommand.promise c) p then 1%nat else 0%nat.
Proof. unfold held. simpl. now destruct (Nat.eqb (PendingCommand.promise c) p). Qed.

Lemma fired_one p c : fired p [c] = if Nat.eqb (callPromise c) p then 1%nat else 0%nat.
Proof. unfold fired. simpl. now destruct (Nat.eqb (callPromise c) p). Qed.

Lemma fired_rejections p err cmds : fired p (map (rejectionOf err) cmds) = held p cmds.
Proof.
  unfold fired, held. induction cmds as [|c cmds IH]; simpl; [reflexivity|].
  destruct (Nat.eqb (PendingCommand.promise c) p); simpl; now rewrite IH.
Qed.

Lemma held_partition p (f : PendingCommand.t -> bool) cmds :
  (held p (filter f cmds) + held p (filter (fun c => negb (f c)) cmds))%nat = held p cmds.
Proof.
  unfold held. induction cmds as [|c cmds IH]; simpl; [reflexivity|].
  destruct (f c); simpl; destruct (Nat.eqb (PendingCommand.promise c) p); simpl; lia.
Qed.

Lemma values_filter (f : PendingCommand.t -> bool) (m : JsMap.t PendingCommand.t) :
  JsMap.values (filter (fun e => f (snd e)) m) = filter f (JsMap.values m).
Proof.
  induction m as [|[k c] m IH]; simpl; [reflexivity|].
  destruct (f c); simpl; now rewrite IH.
Qed.

(** ** The loops, in closed form *)

Lemma rejectEach_spec err cmds w :
  rejectEach err cmds w =
  {| queue := queue w;
     promiseCount := promiseCount w;
     calls := calls w ++ map (rejectionOf err) cmds |}.
Proof.
  revert w. induction cmds as [|c cmds IH]; intros w; simpl.
  - rewrite app_nil_r. now destruct w.
  - rewrite IH. simpl. now rewrite <- app_assoc.
Qed.

(** The loop over the pending map drops exactly the expired entries, in map
    order, and rejects each with the "did not return a result" error. *)
Lemma sweepPending_spec now rest : forall pre w,
  pendingCommands (queue w) = pre ++ rest ->
  wfMap (pre ++ rest) ->
  sweepPending now rest w =
  {| queue :=
       setPendingCommands
         (pre ++ filter (fun e => negb (expired (config (queue w)) now (snd e))) rest)
         (queue w);
     promiseCount := promiseCount w;
     calls :=
       calls w ++
       map (rejectionOf (noResultError (config (queue w))))
         (filter (expired (config (queue w)) now) (JsMap.values rest)) |}.
Proof.
  induction rest as [|[k c] rest IH]; intros pre w Hp Hwf; simpl.
  - rewrite !app_nil_r in *. destruct w as [q n cs]; simpl in *.
    destruct q; simpl in *. now subst.
  - destruct (expired (config (queue w)) now c) eqn:E; simpl.
    + rewrite (IH pre); simpl.
      * rewrite <- app_assoc. reflexivity.
      * rewrite Hp. now apply delete_entry.
      * unfold wfMap in *. rewrite keys_app in *. simpl in Hwf.
        now apply NoDup_remove_1 in Hwf.
    + rewrite (IH (pre ++ [(k, c)])); simpl.
      * now rewrite <- app_assoc.
      * now rewrite <- app_assoc.
      * now rewrite <- app_assoc.
Qed.

Lemma sweep_spec now w :
  wfMap (pendingCommands (queue w)) ->
  sweep now w =
  {| queue :=
       setPendingCommands
         (filter (fun e => negb (expired (config (queue w)) now (snd e)))
            (pendingCommands (queue w)))
         (setWaitingQueue
            (filter (fun c => negb (expired (config (queue w)) now c)) (waitingQueue (queue w)))
            (queue w));
     promiseCount := promiseCount w;
     calls :=
       calls w ++
       map (rejectionOf (neverPickedUpError (config (queue w))))
         (filter (expired (config (queue w)) now) (waitingQueue (queue w))) ++
       map (rejectionOf (noResultError (config (queue w))))
         (filter (expired (config (queue w)) now) (JsMap.values (pendingCommands (queue w)))) |}.
Proof.
  intros Hwf. unfold sweep. rewrite rejectEach_spec. simpl.
  rewrite (sweepPending_spec now _ []); simpl; [|reflexivity|assumption].
  now rewrite <- app_assoc.
Qed.

Lemma shutdown_spec w :
  shutdown w =
  {| queue :=
       {| waitingQueue := [];
          pendingCommands := JsMap.empty;
          connectionState := connectionState (queue w);
          timeoutInterval := None;
          config := config (queue w) |};
     promiseCount := promiseCount w;
     calls :=
       calls w ++
       map (rejectionOf (fun _ => shuttingDownError)) (waitingQueue (queue w)) ++
       map (rejectionOf (fun _ => shuttingDownError)) (JsMap.values (pendingCommands (queue w))) |}.
Proof.
  unfold shutdown. rewrite !rejectEach_spec. unfold withQueue; simpl.
  now rewrite <- app_assoc.
Qed.

(** ** How each operation moves a promise *)

Lemma held_values_set_le p k c (m : JsMap.t PendingCommand.t) :
  (held p (JsMap.values (JsMap.set k c m)) <= held p (JsMap.values m) + held p [c])%nat.
Proof.
  induction m as [|[k' c'] m IH]; simpl.
  - unfold held; simpl. lia.
  - destruct (String.eqb k k'); simpl.
    + change (c :: JsMap.values m) with ([c] ++ JsMap.values m).
      change (c' :: JsMap.values m) with ([c'] ++ JsMap.values m).
      rewrite !held_app. lia.
    + change (c' :: JsMap.values (JsMap.set k c m))
        with ([c'] ++ JsMap.values (JsMap.set k c m)).
      change (c' :: JsMap.values m) with ([c'] ++ JsMap.values m).
      rewrite !held_app. lia.
Qed.

Lemma total_enqueue p type params nowCheck uuid nowCreated w :
  isConnected (queue w) nowCheck = true ->
  total p (snd (enqueue type params nowCheck uuid nowCreated w)) =
  (total p w + if Nat.eqb (promiseCount w) p then 1 else 0)%nat.
Proof.
  intros Hc. unfold enqueue. rewrite Hc. simpl.
  unfold total, inWaiting, inPending. simpl. rewrite held_app, held_one. simpl.
  destruct (Nat.eqb (promiseCount w) p); lia.
Qed.

Lemma enqueue_disconnected type params nowCheck uuid nowCreated w :
  isConnected (queue w) nowCheck = false ->
  enqueue type params nowCheck uuid nowCreated w = (AlreadyRejected notConnectedError, w).
Proof. intros Hc. unfold enqueue. now rewrite Hc. Qed.

Lemma total_dequeue_le p w : (total p (snd (dequeue w)) <= total p w)%nat.
Proof.
  unfold dequeue. destruct (waitingQueue (queue w)) as [|c rest] eqn:E; simpl; [lia|].
  unfold total, inWaiting, inPending. simpl. rewrite E.
  pose proof (held_values_set_le p (PendingCommand.id c) c (pendingCommands (queue w))).
  change (c :: rest) with ([c] ++ rest). rewrite held_app. lia.
Qed.

Lemma total_dequeue p w :
  (forall c rest, waitingQueue (queue w) = c :: rest ->
     ~ In (PendingCommand.id c) (JsMap.keys (pendingCommands (queue w)))) ->
  total p (snd (dequeue w)) = total p w.
Proof.
  intros Hfresh. unfold dequeue.
  destruct (waitingQueue (queue w)) as [|c rest] eqn:E; simpl; [reflexivity|].
  unfold total, inWaiting, inPending. simpl. rewrite E.
  rewrite set_fresh by (now apply (Hfresh c rest)).
  rewrite values_app. simpl.
  change (c :: rest) with ([c] ++ rest). rewrite !held_app. lia.
Qed.

Lemma total_resolve p result w :
  wfMap (pendingCommands (queue w)) ->
  total p (snd (resolve result w)) = total p w.
Proof.
  intros Hwf. unfold resolve.
  destruct (JsMap.get (CommandResult.id result) (pendingCommands (queue w))) as [c|] eqn:E;
    simpl; [|reflexivity].
  destruct (get_split _ _ _ E) as (pre & rest & Hm & _).
  unfold total, inWaiting, inPending. simpl. rewrite Hm in *.
  rewrite delete_entry by assumption.
  rewrite !values_app. simpl.
  change (c :: JsMap.values rest) with ([c] ++ JsMap.values rest).
  rewrite !held_app, fired_app, held_one, fired_one. simpl.
  destruct (Nat.eqb (PendingCommand.promise c) p); lia.
Qed.

Lemma total_sweep p now w :
  wfMap (pendingCommands (queue w)) ->
  total p (sweep now w) = total p w.
Proof.
  intros Hwf. rewrite sweep_spec by assumption.
  unfold total, inWaiting, inPending. simpl.
  rewrite (values_filter (fun c => negb (expired (config (queue w)) now c))).
  rewrite !fired_app, !fired_rejections.
  pose proof (held_partition p (expired (config (queue w)) now) (waitingQueue (queue w))).
  pose proof (held_partition p (expired (config (queue w)) now)
                (JsMap.values (pendingCommands (queue w)))).
  lia.
Qed.

Lemma total_shutdown p w : total p (shutdown w) = total p w.
Proof.
  rewrite shutdown_spec. unfold total, inWaiting, inPending. simpl.
  rewrite !fired_app, !fired_rejections. change (held p []) with 0%nat. lia.
Qed.

Lemma fired_shutdown p w : fired p (calls (shutdown w)) = total p w.
Proof.
  rewrite shutdown_spec. unfold total, inWaiting, inPending. simpl.
  rewrite !fired_app, !fired_rejections. lia.
Qed.

(** ** Invariants of every run *)

Lemma NoDup_map_filter {A B : Type} (f : A -> B) (g : A -> bool) (l : list A) :
  NoDup (map f l) -> NoDup (map f (filter g l)).
Proof.
  induction l as [|x l IH]; simpl; [trivial|].
  intros H. inversion H as [|? ? Hn Hd]; subst.
  destruct (g x); simpl; [|now apply IH].
  constructor; [|now apply IH].
  intros HI. apply Hn. apply in_map_iff in HI as (y & E & HI).
  apply filter_In in HI as [HI _]. apply in_map_iff. now exists y.
Qed.

Lemma NoDup_map_filter_app {A B : Type} (f : A -> B) (g h : A -> bool) (a b : list A) :
  NoDup (map f (a ++ b)) -> NoDup (map f (filter g a ++ filter h b)).
Proof.
  rewrite !map_app. intros H. apply NoDup_app.
  - apply NoDup_map_filter. now apply NoDup_app_remove_r in H.
  - apply NoDup_map_filter. now apply NoDup_app_remove_l in H.
  - intros x Ha Hb.
    apply in_map_iff in Ha as (y & <- & Ha). apply filter_In in Ha as [Ha _].
    apply in_map_iff in Hb as (z & E & Hb). apply filter_In in Hb as [Hb _].
    apply in_split in Ha as (a1 & a2 & ->).
    rewrite map_app in H. simpl in H. rewrite <- app_assoc in H. simpl in H.
    apply NoDup_remove_2 in H. apply H.
    rewrite !in_app_iff. right. right. apply in_map_iff. now exists z.
Qed.

Lemma run_cons w o t : run w (o :: t) = run (step w o) t.
Proof. reflexivity. Qed.

(** What the loop over the pending map leaves alone. *)
Lemma sweepPending_frame now entries : forall w,
  config (queue (sweepPending now entries w)) = config (queue w) /\
  promiseCount (sweepPending now entries w) = promiseCount w /\
  waitingQueue (queue (sweepPending now entries w)) = waitingQueue (queue w) /\
  connectionState (queue (sweepPending now entries w)) = connectionState (queue w) /\
  timeoutInterval (queue (sweepPending now entries w)) = timeoutInterval (queue w).
Proof.
  induction entries as [|[k c] entries IH]; intros w; simpl; [tauto|].
  destruct (expired (config (queue w)) now c); [|apply IH].
  match goal with |- context [sweepPending now entries ?w0] =>
    destruct (IH w0) as (-> & -> & -> & -> & ->) end.
  simpl. tauto.
Qed.

Lemma sweep_frame now w :
  config (queue (sweep now w)) = config (queue w) /\
  promiseCount (sweep now w) = promiseCount w /\
  connectionState (queue (sweep now w)) = connectionState (queue w) /\
  timeoutInterval (queue (sweep now w)) = timeoutInterval (queue w).
Proof.
  unfold sweep. rewrite rejectEach_spec.
  match goal with |- context [sweepPending now ?e ?w0] =>
    destruct (sweepPending_frame now e w0) as (-> & -> & _ & -> & ->) end.
  simpl. tauto.
Qed.

Lemma config_step w o : config (queue (step w o)) = config (queue w).
Proof.
  destruct o as [ty ps n1 u n2| |r|n v s|n|]; cbn [step].
  - unfold enqueue. now destruct (negb (isConnected (queue w) n1)).
  - unfold dequeue. now destruct (waitingQueue (queue w)).
  - unfold resolve.
    now destruct (JsMap.get (CommandResult.id r) (pendingCommands (queue w))).
  - reflexivity.
  - destruct (timeoutInterval (queue w)); [|reflexivity]. apply sweep_frame.
  - now rewrite shutdown_spec.
Qed.

Lemma config_run t : forall w, config (queue (run w t)) = config (queue w).
Proof.
  induction t as [|o t IH]; intros w; [reflexivity|].
  now rewrite run_cons, IH, config_step.
Qed.

Lemma wfMap_step w o :
  wfMap (pendingCommands (queue w)) -> wfMap (pendingCommands (queue (step w o))).
Proof.
  intros Hwf. destruct o as [ty ps n1 u n2| |r|n v s|n|]; cbn [step].
  - unfold enqueue. now destruct (negb (isConnected (queue w) n1)).
  - unfold dequeue. destruct (waitingQueue (queue w)); simpl; [assumption|].
    now apply wfMap_set.
  - unfold resolve.
    destruct (JsMap.get (CommandResult.id r) (pendingCommands (queue w))); simpl;
      [now apply wfMap_delete | assumption].
  - assumption.
  - destruct (timeoutInterval (queue w)); [|assumption].
    rewrite sweep_spec by assumption. simpl. now apply NoDup_map_filter.
  - rewrite shutdown_spec. simpl. apply wfMap_empty.
Qed.


Lemma AtMostOnce_start cfg : AtMostOnce (start cfg).
Proof.
  split; simpl.
  - apply wfMap_empty.
  - intros p. unfold total, inWaiting, inPending, held, fired. simpl. lia.
  - intros p _. reflexivity.
Qed.

Lemma promiseCount_enqueue type params nowCheck uuid nowCreated w :
  promiseCount (snd (enqueue type params nowCheck uuid nowCreated w)) =
  if isConnected (queue w) nowCheck then S (promiseCount w) else promiseCount w.
Proof. unfold enqueue. now destruct (isConnected (queue w) nowCheck). Qed.

Lemma promiseCount_step w o :
  promiseCount (step w o) =
  match o with
  | OpEnqueue _ _ nowCheck _ _ =>
      if isConnected (queue w) nowCheck then S (promiseCount w) else promiseCount w
  | _ => promiseCount w
  end.
Proof.
  destruct o as [ty ps n1 u n2| |r|n v s|n|]; cbn [step].
  - apply promiseCount_enqueue.
  - unfold dequeue. now destruct (waitingQueue (queue w)).
  - unfold resolve.
    now destruct (JsMap.get (CommandResult.id r) (pendingCommands (queue w))).
  - reflexivity.
  - destruct (timeoutInterval (queue w)); [|reflexivity].
    apply sweep_frame.
  - now rewrite shutdown_spec.
Qed.

Lemma AtMostOnce_step w o : AtMostOnce w -> AtMostOnce (step w o).
Proof.
  intros [Hm Ht Hu]. split.
  - now apply wfMap_step.
  - intros p. specialize (Ht p). specialize (Hu p).
    destruct o as [ty ps n1 u n2| |r|n v s|n|]; cbn [step].
    + destruct (isConnected (queue w) n1) eqn:Hc.
      * rewrite total_enqueue by assumption.
        destruct (Nat.eqb_spec (promiseCount w) p) as [<-|Hne]; [|lia].
        rewrite Hu; lia.
      * now rewrite enqueue_disconnected.
    + pose proof (total_dequeue_le p w). lia.
    + now rewrite total_resolve.
    + exact Ht.
    + destruct (timeoutInterval (queue w)); [|exact Ht]. now rewrite total_sweep.
    + now rewrite total_shutdown.
  - intros p Hp. rewrite promiseCount_step in Hp.
    destruct o as [ty ps n1 u n2| |r|n v s|n|]; cbn [step].
    + destruct (isConnected (queue w) n1) eqn:Hc.
      * rewrite total_enqueue by assumption.
        destruct (Nat.eqb_spec (promiseCount w) p) as [<-|Hne]; [lia|].
        rewrite Hu; lia.
      * rewrite enqueue_disconnected by assumption. now apply Hu.
    + pose proof (total_dequeue_le p w). specialize (Hu p Hp). lia.
    + rewrite total_resolve by assumption. now apply Hu.
    + now apply Hu.
    + destruct (timeoutInterval (queue w)); [|now apply Hu].
      rewrite total_sweep by assumption. now apply Hu.
    + rewrite total_shutdown. now apply Hu.
Qed.

Lemma AtMostOnce_run t : forall w, AtMostOnce w -> AtMostOnce (run w t).
Proof.
  induction t as [|o t IH]; intros w H; [assumption|].
  rewrite run_cons. apply IH. now apply AtMostOnce_step.
Qed.

(** ** Invariants of the runs in which [uuidv4()] never repeats itself *)

Lemma keys_own (m : JsMap.t PendingCommand.t) :
  (forall k c, In (k, c) m -> k = PendingCommand.id c) ->
  JsMap.keys m = map PendingCommand.id (JsMap.values m).
Proof.
  induction m as [|[k c] m IH]; simpl; [reflexivity|].
  intros H. f_equal.
  - apply H. now left.
  - apply IH. intros k' c' HI. apply H. now right.
Qed.

(** The command at the head of the waiting queue is not yet in the map. *)
Lemma head_not_pending w c rest :
  wfQueue w ->
  waitingQueue (queue w) = c :: rest ->
  ~ In (PendingCommand.id c) (JsMap.keys (pendingCommands (queue w))).
Proof.
  intros [_ Hown Hids] E. rewrite (keys_own _ Hown).
  unfold liveCommands in Hids. rewrite E in Hids. simpl in Hids.
  inversion Hids as [|? ? Hn _]; subst. intros HI. apply Hn.
  rewrite map_app, in_app_iff. now right.
Qed.

Lemma wfQueue_step w o :
  wfQueue w ->
  (forall u, In u (uuids [o]) -> ~ In u (liveIds w)) ->
  wfQueue (step w o) /\
  (forall x, In x (liveIds (step w o)) -> In x (liveIds w) \/ In x (uuids [o])).
Proof.
  intros Hwf Hfresh. pose proof Hwf as [Hkeys Hown Hids].
  destruct o as [ty ps n1 u n2| |r|n v s|n|]; cbn [step].
  - (* enqueue *)
    unfold enqueue. destruct (isConnected (queue w) n1); simpl; [|now auto].
    split.
    + split; simpl; try assumption.
      unfold liveCommands in *. simpl. rewrite <- app_assoc, map_app. simpl.
      apply (Permutation_NoDup (l := u :: map PendingCommand.id
               (waitingQueue (queue w) ++ JsMap.values (pendingCommands (queue w))))).
      * rewrite map_app. apply Permutation_middle.
      * constructor; [|assumption]. apply Hfresh. now left.
    + unfold liveIds, liveCommands. simpl. intros x.
      rewrite !map_app, !in_app_iff. simpl. tauto.
  - (* dequeue *)
    unfold dequeue. destruct (waitingQueue (queue w)) as [|c rest] eqn:E; simpl; [now auto|].
    pose proof (head_not_pending w c rest Hwf E) as Hhead.
    assert (Hlive : liveCommands (withQueue (fun q =>
              setPendingCommands
                (JsMap.set (PendingCommand.id c) c (pendingCommands q))
                (setWaitingQueue rest q)) w) =
            (rest ++ JsMap.values (pendingCommands (queue w))) ++ [c]).
    { unfold liveCommands. simpl. rewrite set_fresh by assumption.
      rewrite values_app. simpl. now rewrite app_assoc. }
    split.
    + split.
      * simpl. now apply wfMap_set.
      * simpl. rewrite set_fresh by assumption. intros k c' HI.
        apply in_app_iff in HI as [HI|[[= <- <-]|[]]]; [now apply Hown | reflexivity].
      * rewrite Hlive. unfold liveCommands in Hids. rewrite E in Hids. simpl in Hids.
        rewrite map_app. simpl.
        eapply Permutation_NoDup; [|exact Hids].
        apply Permutation_cons_append.
    + unfold liveIds. rewrite Hlive. unfold liveCommands. rewrite E. intros x.
      rewrite !map_app, !in_app_iff. simpl. tauto.
  - (* resolve *)
    unfold resolve.
    destruct (JsMap.get (CommandResult.id r) (pendingCommands (queue w))) as [c|] eqn:E;
      simpl; [|now auto].
    destruct (get_split _ _ _ E) as (pre & rest & Hm & _).
    assert (Hd : JsMap.delete (CommandResult.id r) (pendingCommands (queue w)) = pre ++ rest).
    { rewrite Hm. apply delete_entry. now rewrite <- Hm. }
    split.
    + split; simpl.
      * now apply wfMap_delete.
      * intros k c' HI. apply delete_keys_incl in HI. now apply Hown.
      * unfold liveCommands in *. simpl. rewrite Hd. rewrite Hm in Hids.
        rewrite values_app in *. simpl in Hids.
        rewrite app_assoc, map_app in Hids. simpl in Hids.
        apply NoDup_remove_1 in Hids. now rewrite app_assoc, map_app.
    + unfold liveIds, liveCommands. simpl. rewrite Hd, Hm. intros x.
      rewrite !values_app. simpl. rewrite !map_app, !in_app_iff. simpl. tauto.
  - (* heartbeat *)
    split; [|now auto]. now split.
  - (* the timer *)
    destruct (timeoutInterval (queue w)); [|now auto].
    rewrite sweep_spec by assumption.
    set (keep := fun c => negb (expired (config (queue w)) n c)).
    split.
    + split; simpl.
      * now apply NoDup_map_filter.
      * intros k c HI. apply filter_In in HI as [HI _]. now apply Hown.
      * unfold liveCommands in *. simpl. rewrite (values_filter keep).
        now apply NoDup_map_filter_app.
    + unfold liveIds, liveCommands. simpl. rewrite (values_filter keep). intros x HI.
      left. apply in_map_iff in HI as (c & <- & HI). apply in_map. 
      apply in_app_iff in HI as [HI|HI]; apply filter_In in HI as [HI _];
        apply in_app_iff; tauto.
  - (* shutdown *)
    rewrite shutdown_spec. split.
    + split; simpl; [apply wfMap_empty | intros k c [] | constructor].
    + unfold liveIds, liveCommands. simpl. intros x [].
Qed.

Lemma ExactlyOnce_start cfg : ExactlyOnce (start cfg).
Proof.
  split.
  - split; simpl; [apply wfMap_empty | intros k c [] | constructor].
  - apply AtMostOnce_start.
  - simpl. intros p Hp. lia.
Qed.

Lemma ExactlyOnce_step w o :
  ExactlyOnce w ->
  (forall u, In u (uuids [o]) -> ~ In u (liveIds w)) ->
  ExactlyOnce (step w o).
Proof.
  intros [Hq Ha Ht] Hfresh. split.
  - now apply wfQueue_step.
  - now apply AtMostOnce_step.
  - intros p Hp. rewrite promiseCount_step in Hp.
    pose proof (amo_map w Ha) as Hm. pose proof (amo_unborn w Ha p) as Hu.
    destruct o as [ty ps n1 u n2| |r|n v s|n|]; cbn [step].
    + destruct (isConnected (queue w) n1) eqn:Hc.
      * rewrite total_enqueue by assumption.
        destruct (Nat.eqb_spec (promiseCount w) p) as [<-|Hne].
        -- rewrite Hu; lia.
        -- rewrite Ht; lia.
      * rewrite enqueue_disconnected by assumption. now apply Ht.
    + rewrite total_dequeue; [now apply Ht|].
      intros c rest E. now apply (head_not_pending w c rest).
    + rewrite total_resolve by assumption. now apply Ht.
    + now apply Ht.
    + destruct (timeoutInterval (queue w)); [|now apply Ht].
      rewrite total_sweep by assumption. now apply Ht.
    + rewrite total_shutdown. now apply Ht.
Qed.

Lemma uuids_cons o t : uuids (o :: t) = uuids [o] ++ uuids t.
Proof. now destruct o. Qed.

Lemma ExactlyOnce_run t : forall w,
  ExactlyOnce w ->
  NoDup (uuids t) ->
  (forall u, In u (uuids t) -> ~ In u (liveIds w)) ->
  ExactlyOnce (run w t).
Proof.
  induction t as [|o t IH]; intros w Hw Hnd Hfresh; [assumption|].
  rewrite run_cons. rewrite uuids_cons in Hnd, Hfresh.
  assert (Ho : forall u, In u (uuids [o]) -> ~ In u (liveIds w)).
  { intros u Hu. apply Hfresh. apply in_app_iff. now left. }
  apply IH.
  - now apply ExactlyOnce_step.
  - now apply NoDup_app_remove_l in Hnd.
  - intros u Hu HI.
    destruct (wfQueue_step w o (eo_queue w Hw) Ho) as [_ Hincl].
    destruct (Hincl u HI) as [Hold|Hnew].
    + apply (Hfresh u); [apply in_app_iff; now right | assumption].
    + destruct o; simpl in Hnew; try contradiction.
      destruct Hnew as [<-|[]]. simpl in Hnd. inversion Hnd; subst. contradiction.
Qed.

(** ** Where calls come from *)

Lemma calls_step w o :
  wfMap (pendingCommands (queue w)) ->
  exists extra,
    calls (step w o) = calls w ++ extra /\
    Forall (explains (config (queue w)) o) extra.
Proof.
  intros Hwf. destruct o as [ty ps n1 u n2| |r|n v s|n|]; cbn [step].
  - exists []. rewrite app_nil_r. split; [|constructor].
    unfold enqueue. now destruct (negb (isConnected (queue w) n1)).
  - exists []. rewrite app_nil_r. split; [|constructor].
    unfold dequeue. now destruct (waitingQueue (queue w)).
  - unfold resolve.
    destruct (JsMap.get (CommandResult.id r) (pendingCommands (queue w))) as [c|]; simpl.
    + exists [CallResolve (PendingCommand.promise c) r]. split; [reflexivity|].
      now repeat constructor.
    + exists []. rewrite app_nil_r. split; [reflexivity | constructor].
  - exists []. rewrite app_nil_r. split; [reflexivity | constructor].
  - destruct (timeoutInterval (queue w)).
    + rewrite sweep_spec by assumption. simpl. eexists. split; [reflexivity|].
      apply Forall_app. split; apply Forall_forall; intros c HI;
        apply in_map_iff in HI as (cmd & <- & _); simpl; exists cmd; tauto.
    + exists []. rewrite app_nil_r. split; [reflexivity | constructor].
  - rewrite shutdown_spec. simpl. eexists. split; [reflexivity|].
    apply Forall_app. split; apply Forall_forall; intros c HI;
      apply in_map_iff in HI as (cmd & <- & _); reflexivity.
Qed.

Lemma calls_run t : forall w,
  wfMap (pendingCommands (queue w)) ->
  exists extra,
    calls (run w t) = calls w ++ extra /\
    Forall (fun c => exists o, In o t /\ explains (config (queue w)) o c) extra.
Proof.
  induction t as [|o t IH]; intros w Hwf.
  - exists []. rewrite app_nil_r. split; [reflexivity | constructor].
  - rewrite run_cons.
    destruct (calls_step w o Hwf) as (e1 & E1 & F1).
    destruct (IH (step w o) (wfMap_step w o Hwf)) as (e2 & E2 & F2).
    rewrite config_step in F2.
    exists (e1 ++ e2). split.
    + now rewrite E2, E1, app_assoc.
    + apply Forall_app. split.
      * eapply Forall_impl; [|exact F1]. intros c Hc. exists o. split; [now left | assumption].
      * eapply Forall_impl; [|exact F2]. intros c (o' & HI & Hc).
        exists o'. split; [now right | assumption].
Qed.

(** Calls are never taken back. *)
Lemma fired_run_mono p t w :
  wfMap (pendingCommands (queue w)) ->
  (fired p (calls w) <= fired p (calls (run w t)))%nat.
Proof.
  intros Hwf. destruct (calls_run t w Hwf) as (extra & -> & _).
  rewrite fired_app. lia.
Qed.

(** ** The timer *)

Lemma timeoutInterval_step w o :
  timeoutInterval (queue w) = None -> timeoutInterval (queue (step w o)) = None.
Proof.
  intros H. destruct o as [ty ps n1 u n2| |r|n v s|n|]; cbn [step].
  - unfold enqueue. now destruct (negb (isConnected (queue w) n1)).
  - unfold dequeue. now destruct (waitingQueue (queue w)).
  - unfold resolve.
    now destruct (JsMap.get (CommandResult.id r) (pendingCommands (queue w))).
  - assumption.
  - now rewrite H.
  - now rewrite shutdown_spec.
Qed.

Lemma timeoutInterval_run t : forall w,
  timeoutInterval (queue w) = None -> timeoutInterval (queue (run w t)) = None.
Proof.
  induction t as [|o t IH]; intros w H; [assumption|].
  rewrite run_cons. apply IH. now apply timeoutInterval_step.
Qed.

(** Only [shutdown] touches the timer. *)
Lemma timeoutInterval_kept w o :
  o <> OpShutdown -> timeoutInterval (queue (step w o)) = timeoutInterval (queue w).
Proof.
  intros H. destruct o as [ty ps n1 u n2| |r|n v s|n|]; cbn [step].
  - unfold enqueue. now destruct (negb (isConnected (queue w) n1)).
  - unfold dequeue. now destruct (waitingQueue (queue w)).
  - unfold resolve.
    now destruct (JsMap.get (CommandResult.id r) (pendingCommands (queue w))).
  - reflexivity.
  - destruct (timeoutInterval (queue w)) eqn:E; [|now rewrite E].
    destruct (sweep_frame n w) as (_ & _ & _ & ->). exact E.
  - congruence.
Qed.

Lemma timeoutInterval_until_shutdown t : forall w,
  ~ In OpShutdown t -> timeoutInterval (queue (run w t)) = timeoutInterval (queue w).
Proof.
  induction t as [|o t IH]; intros w H; [reflexivity|].
  rewrite run_cons, IH, timeoutInterval_kept; [reflexivity | |].
  - intros ->. apply H. now left.
  - intros HI. apply H. now right.
Qed.

(** With the timer cleared, no number of ticks does anything. *)
Lemma cleared_timer_never_sweeps w nows :
  timeoutInterval (queue w) = None -> run w (map OpTick nows) = w.
Proof.
  intros H. induction nows as [|now nows IH]; [reflexivity|].
  simpl map. rewrite run_cons. cbn [step]. rewrite H. exact IH.
Qed.

(** ** The connection state *)

Lemma connectionState_step w o :
  connectionState (queue (step w o)) =
  match o with
  | OpHeartbeat now pluginVersion studioSessionId =>
      ConnectionState.mk true now pluginVersion studioSessionId
  | _ => connectionState (queue w)
  end.
Proof.
  destruct o as [ty ps n1 u n2| |r|n v s|n|]; cbn [step].
  - unfold enqueue. now destruct (negb (isConnected (queue w) n1)).
  - unfold dequeue. now destruct (waitingQueue (queue w)).
  - unfold resolve.
    now destruct (JsMap.get (CommandResult.id r) (pendingCommands (queue w))).
  - reflexivity.
  - destruct (timeoutInterval (queue w)); [|reflexivity]. apply sweep_frame.
  - now rewrite shutdown_spec.
Qed.

Lemma connectionState_run t : forall w seen,
  match seen with
  | Some T =>
      ConnectionState.connected (connectionState (queue w)) = true /\
      ConnectionState.lastHeartbeat (connectionState (queue w)) = T
  | None => ConnectionState.connected (connectionState (queue w)) = false
  end ->
  match latestHeartbeat seen t with
  | Some T =>
      ConnectionState.connected (connectionState (queue (run w t))) = true /\
      ConnectionState.lastHeartbeat (connectionState (queue (run w t))) = T
  | None => ConnectionState.connected (connectionState (queue (run w t))) = false
  end.
Proof.
  induction t as [|o t IH]; intros w seen H; [exact H|].
  rewrite run_cons.
  destruct o as [ty ps n1 u n2| |r|n v s|n|]; cbn [latestHeartbeat]; apply IH;
    rewrite connectionState_step; try assumption.
  simpl. tauto.
Qed.

(** ** The error messages *)

Lemma lastChar_app s t c : lastChar t = Some c -> lastChar (s ++ t) = Some c.
Proof.
  intros H. induction s as [|a s IH]; [assumption|].
  change (String a s ++ t)%string with (String a (s ++ t)).
  destruct (s ++ t)%string as [|b r] eqn:E; [discriminate|].
  exact IH.
Qed.

Lemma lastChar_neverPickedUp cfg cmd :
  lastChar (message (neverPickedUpError cfg cmd)) = Some "p"%char.
Proof. unfold neverPickedUpError. cbn [message]. do 4 apply lastChar_app. reflexivity. Qed.

Lemma lastChar_noResult cfg cmd :
  lastChar (message (noResultError cfg cmd)) = Some "t"%char.
Proof. unfold noResultError. cbn [message]. do 4 apply lastChar_app. reflexivity. Qed.

Lemma timeout_errors_differ cfg cfg' cmd cmd' :
  neverPickedUpError cfg cmd <> noResultError cfg' cmd'.
Proof.
  intros E. apply (f_equal (fun e => lastChar (message e))) in E.
  rewrite lastChar_neverPickedUp, lastChar_noResult in E. discriminate.
Qed.

Lemma held_filter_ge p (f : PendingCommand.t -> bool) c cmds :
  In c cmds -> f c = true -> PendingCommand.promise c = p ->
  (1 <= held p (filter f cmds))%nat.
Proof.
  intros HI Hf Hp. apply in_split in HI as (l1 & l2 & ->).
  rewrite filter_app. simpl. rewrite Hf.
  change (c :: filter f l2) with ([c] ++ filter f l2).
  rewrite !held_app, held_one, Hp, Nat.eqb_refl. lia.
Qed.

Lemma expired_iff cfg now cmd :
  expired cfg now cmd = true <-> now - PendingCommand.createdAt cmd > commandTimeoutMs cfg.
Proof. unfold expired. rewrite Z.gtb_ltb, Z.ltb_lt. lia. Qed.

(** No promise is settled twice, in any run at all. *)
Lemma never_fired_twice cfg t p : (fired p (calls (run (start cfg) t)) <= 1)%nat.
Proof.
  pose proof (amo_total _ (AtMostOnce_run t _ (AtMostOnce_start cfg)) p) as H.
  unfold total in H. lia.
Qed.

Lemma run_app w t t' : run w (t ++ t') = run (run w t) t'.
Proof. unfold run. apply fold_left_app. Qed.

Lemma ExactlyOnce_reachable cfg t : NoDup (uuids t) -> ExactlyOnce (run (start cfg) t).
Proof.
  intros Hnd. apply ExactlyOnce_run; [apply ExactlyOnce_start | assumption |].
  intros u _ [].
Qed.

(** * The claims *)

(** C1.  A command enqueued while the broker is connected is the promise
    [enqueue] created for it, [p < promiseCount].  In every run in which
    [uuidv4()] does not repeat itself, such a promise is either still held by
    one live command and not yet settled, or settled by exactly one call and
    held by none; each call made comes from a matched result, from a sweep of
    the timer or from [shutdown]; [shutdown] settles it if it is still open;
    the timer runs until [shutdown] is called, and while it runs the first
    tick that finds the command older than the command timeout settles it;
    whatever happens afterwards, a second call is never made and a call made
    is never taken back. *)
Theorem future_settles_exactly_once cfg t p :
  NoDup (uuids t) ->
  (p < promiseCount (run (start cfg) t))%nat ->
  let w := run (start cfg) t in
  (held p (liveCommands w) + fired p (calls w) = 1)%nat /\
  (forall c, In c (calls w) -> exists o, In o t /\ explains cfg o c) /\
  fired p (calls (shutdown w)) = 1%nat /\
  (~ In OpShutdown t -> timeoutInterval (queue w) <> None) /\
  (forall now cmd,
     timeoutInterval (queue w) <> None ->
     In cmd (liveCommands w) ->
     PendingCommand.promise cmd = p ->
     now - PendingCommand.createdAt cmd > commandTimeoutMs cfg ->
     fired p (calls (step w (OpTick now))) = 1%nat) /\
  (forall t', (fired p (calls w) <= fired p (calls (run w t')) <= 1)%nat).
Proof.
  intros Hnd Hp w.
  pose proof (ExactlyOnce_reachable cfg t Hnd) as Hex. fold w in Hex.
  pose proof (eo_total w Hex p Hp) as Ht.
  pose proof (amo_map w (eo_amo w Hex)) as Hm.
  assert (Hcfg : config (queue w) = cfg) by apply config_run.
  repeat split.
  - unfold total, inWaiting, inPending in Ht. unfold liveCommands.
    rewrite held_app. lia.
  - intros c HI. destruct (calls_run t (start cfg) (wfMap_empty)) as (extra & E & F).
    fold w in E. simpl in E. subst extra. rewrite Forall_forall in F. now apply F.
  - now rewrite fired_shutdown.
  - intros Hns. unfold w. rewrite timeoutInterval_until_shutdown by assumption. discriminate.
  - intros now cmd Hti HI Hpc Hage.
    pose proof (amo_total _ (AtMostOnce_step w (OpTick now) (eo_amo w Hex)) p) as Hle.
    cbn [step] in *. destruct (timeoutInterval (queue w)); [|congruence].
    assert (1 <= fired p (calls (sweep now w)))%nat; [|unfold total in Hle; lia].
    rewrite sweep_spec by assumption. simpl. rewrite !fired_app, !fired_rejections.
    assert (He : expired (config (queue w)) now cmd = true)
      by (apply expired_iff; now rewrite Hcfg).
    apply in_app_iff in HI as [HI|HI];
      pose proof (held_filter_ge p _ cmd _ HI He Hpc); lia.
  - now apply fired_run_mono.
  - unfold w. rewrite <- run_app. apply never_fired_twice.
Qed.

Lemma future_settles_exactly_once_witness :
  let cfg := DEFAULT_BRIDGE_CONFIG in
  let t := [OpHeartbeat 0 None None; OpEnqueue "ping" [] 0 "a" 0; OpDequeue] in
  let w := run (start cfg) t in
  NoDup (uuids t) /\
  (0 < promiseCount w)%nat /\
  (held 0 (liveCommands w) + fired 0 (calls w) = 1)%nat /\
  fired 0 (calls (shutdown w)) = 1%nat /\
  fired 0 (calls (step w (OpTick 30001))) = 1%nat.
Proof.
  intros cfg t w.
  assert (Hnd : NoDup (uuids t)) by (repeat constructor; intros []).
  assert (Hp : (0 < promiseCount w)%nat) by (vm_compute; lia).
  destruct (future_settles_exactly_once cfg t 0 Hnd Hp) as (H1 & _ & H3 & _ & H4 & _).
  split; [exact Hnd|]. split; [exact Hp|]. split; [exact H1|]. split; [exact H3|].
  apply (H4 30001
           {| PendingCommand.id := "a"; PendingCommand.type := "ping";
              PendingCommand.params := []; PendingCommand.promise := 0;
              PendingCommand.createdAt := 0 |}).
  - discriminate.
  - vm_compute. now left.
  - reflexivity.
  - vm_compute. reflexivity.
Defined.

(** C1, where it fails as stated: a command enqueued after [shutdown], while
    the last heartbeat is still recent, is accepted, but the timer is gone:
    ticks long past its deadline leave it unsettled in the waiting queue. *)
Lemma enqueue_after_shutdown_is_never_swept :
  let before := run (start DEFAULT_BRIDGE_CONFIG) [OpHeartbeat 0 None None; OpShutdown] in
  let w := step before (OpEnqueue "ping" [] 1 "a" 1) in
  isConnected (queue before) 1 = true /\
  fst (enqueue "ping" [] 1 "a" 1 before) = Awaiting 0 /\
  fired 0 (calls w) = 0%nat /\
  run w [OpTick 30002; OpTick 31002; OpTick 1000000] = w /\
  fired 0 (calls (run w [OpTick 30002; OpTick 31002; OpTick 1000000])) = 0%nat.
Proof. vm_compute. repeat split; reflexivity. Qed.

(** C2.  In every run in which [uuidv4()] does not repeat itself, and for
    every command enqueued (the promise [p] created for it): while no call has
    settled it, it is in exactly one of the waiting queue and the pending map;
    once a call has settled it, it is in neither.  No two commands the queue
    holds share an identifier, and the map keeps each under its own. *)
Theorem live_command_in_exactly_one_collection cfg t p :
  NoDup (uuids t) ->
  (p < promiseCount (run (start cfg) t))%nat ->
  let w := run (start cfg) t in
  (fired p (calls w) = 0%nat ->
     (inWaiting p w = 1%nat /\ inPending p w = 0%nat) \/
     (inWaiting p w = 0%nat /\ inPending p w = 1%nat)) /\
  (fired p (calls w) <> 0%nat -> inWaiting p w = 0%nat /\ inPending p w = 0%nat) /\
  NoDup (liveIds w) /\
  (forall k c, In (k, c) (pendingCommands (queue w)) -> k = PendingCommand.id c).
Proof.
  intros Hnd Hp w.
  pose proof (ExactlyOnce_reachable cfg t Hnd) as Hex. fold w in Hex.
  pose proof (eo_total w Hex p Hp) as Ht. unfold total in Ht.
  destruct (eo_queue w Hex) as [_ Hown Hids].
  split; [|split; [|split]].
  - intros H0. lia.
  - intros H0. lia.
  - exact Hids.
  - exact Hown.
Qed.

Lemma live_command_in_exactly_one_collection_witness :
  let cfg := DEFAULT_BRIDGE_CONFIG in
  let t := [OpHeartbeat 0 None None; OpEnqueue "ping" [] 0 "a" 0;
            OpEnqueue "pong" [] 5 "b" 5; OpDequeue] in
  let w := run (start cfg) t in
  NoDup (uuids t) /\
  (0 < promiseCount w)%nat /\
  fired 0 (calls w) = 0%nat /\
  ((inWaiting 0 w = 1%nat /\ inPending 0 w = 0%nat) \/
   (inWaiting 0 w = 0%nat /\ inPending 0 w = 1%nat)).
Proof.
  intros cfg t w.
  assert (Hnd : NoDup (uuids t)).
  { simpl. constructor; [intros [H|[]]; discriminate H|]. repeat constructor. intros []. }
  assert (Hp : (0 < promiseCount w)%nat) by (vm_compute; lia).
  assert (H0 : fired 0 (calls w) = 0%nat) by reflexivity.
  split; [exact Hnd|]. split; [exact Hp|]. split; [exact H0|].
  exact (proj1 (live_command_in_exactly_one_collection cfg t 0 Hnd Hp) H0).
Defined.

(** C3, where it fails as stated: a tick that finds commands exactly as old
    as the command timeout, one waiting and one pending, removes neither and
    rejects neither. *)
Lemma sweep_keeps_commands_at_the_timeout :
  let w := run (start DEFAULT_BRIDGE_CONFIG)
             [OpHeartbeat 0 None None; OpEnqueue "ping" [] 0 "a" 0;
              OpEnqueue "pong" [] 0 "b" 0; OpDequeue] in
  let a := PendingCommand.mk "a" "ping" [] 0 0 in
  let b := PendingCommand.mk "b" "pong" [] 1 0 in
  waitingQueue (queue w) = [b] /\
  pendingCommands (queue w) = [("a"%string, a)] /\
  30000 - PendingCommand.createdAt b >= commandTimeoutMs (config (queue w)) /\
  30000 - PendingCommand.createdAt a >= commandTimeoutMs (config (queue w)) /\
  step w (OpTick 30000) = w /\
  calls (step w (OpTick 30000)) = [].
Proof.
  intros w a b.
  split; [reflexivity|]. split; [reflexivity|].
  split; [simpl; lia|]. split; [simpl; lia|].
  split; reflexivity.
Qed.

(** C3, amended.  A sweep removes from the waiting queue exactly the commands
    whose age is strictly greater than the command timeout and rejects each
    with the "never picked it up" error; it removes from the pending map
    exactly the entries whose command is that old and rejects each with the
    "did not return a result" error; it makes no other call; both collections
    are swept by the same tick; and no "never picked it up" error equals a
    "did not return a result" error. *)
Theorem sweep_expires_older_than_timeout now w :
  wfMap (pendingCommands (queue w)) ->
  let cfg := config (queue w) in
  let w' := sweep now w in
  (forall cmd, expired cfg now cmd = true <->
               now - PendingCommand.createdAt cmd > commandTimeoutMs cfg) /\
  waitingQueue (queue w') =
    filter (fun cmd => negb (expired cfg now cmd)) (waitingQueue (queue w)) /\
  pendingCommands (queue w') =
    filter (fun e => negb (expired cfg now (snd e))) (pendingCommands (queue w)) /\
  calls w' =
    calls w ++
    map (rejectionOf (neverPickedUpError cfg)) (filter (expired cfg now) (waitingQueue (queue w))) ++
    map (rejectionOf (noResultError cfg))
      (filter (expired cfg now) (JsMap.values (pendingCommands (queue w)))) /\
  (forall cmd, In cmd (waitingQueue (queue w)) ->
     now - PendingCommand.createdAt cmd > commandTimeoutMs cfg ->
     ~ In cmd (waitingQueue (queue w')) /\
     In (CallReject (PendingCommand.promise cmd) (neverPickedUpError cfg cmd)) (calls w')) /\
  (forall k cmd, In (k, cmd) (pendingCommands (queue w)) ->
     now - PendingCommand.createdAt cmd > commandTimeoutMs cfg ->
     ~ In (k, cmd) (pendingCommands (queue w')) /\
     In (CallReject (PendingCommand.promise cmd) (noResultError cfg cmd)) (calls w')) /\
  (forall cmd cmd', neverPickedUpError cfg cmd <> noResultError cfg cmd').
Proof.
  intros Hwf cfg w'. unfold w'. rewrite sweep_spec by assumption. fold cfg. simpl.
  split; [intros cmd; apply expired_iff|].
  split; [reflexivity|]. split; [reflexivity|]. split; [reflexivity|].
  split; [|split].
  - intros cmd HI Hage. apply expired_iff in Hage. split.
    + rewrite filter_In. rewrite Hage. simpl. intros [_ H]. discriminate.
    + rewrite !in_app_iff. right. left.
      apply (in_map (rejectionOf (neverPickedUpError cfg))).
      apply filter_In. now split.
  - intros k cmd HI Hage. apply expired_iff in Hage. split.
    + rewrite filter_In. simpl. rewrite Hage. simpl. intros [_ H]. discriminate.
    + rewrite !in_app_iff. right. right.
      apply (in_map (rejectionOf (noResultError cfg))).
      apply filter_In. split; [|assumption].
      apply (in_map snd) in HI. exact HI.
  - intros cmd cmd'. apply timeout_errors_differ.
Qed.

Lemma sweep_expires_older_than_timeout_witness :
  let w := run (start DEFAULT_BRIDGE_CONFIG)
             [OpHeartbeat 0 None None; OpEnqueue "ping" [] 0 "a" 0;
              OpEnqueue "pong" [] 0 "b" 0; OpDequeue] in
  wfMap (pendingCommands (queue w)) /\
  waitingQueue (queue (sweep 30001 w)) =
    filter (fun cmd => negb (expired (config (queue w)) 30001 cmd)) (waitingQueue (queue w)) /\
  waitingQueue (queue (sweep 30001 w)) = [] /\
  pendingCommands (queue (sweep 30001 w)) = [].
Proof.
  intros w.
  assert (Hwf : wfMap (pendingCommands (queue w))).
  { unfold wfMap. simpl. repeat constructor. intros []. }
  destruct (sweep_expires_older_than_timeout 30001 w Hwf) as (_ & HW & _).
  split; [exact Hwf|]. split; [exact HW|]. split; reflexivity.
Defined.

(** C4.  [enqueue] looks at the connection first.  Not connected: the future
    it returns is already rejected with the "not connected" error and nothing
    at all has changed.  Connected: the future is a new promise, and exactly
    one command, carrying the identifier [uuidv4()] returned, the given type
    and parameters and the time read for [createdAt], has been put at the
    tail of the waiting queue; the pending map, the connection state, the
    timer and the calls made are as before. *)
Theorem enqueue_checks_connection_first type params nowCheck uuid nowCreated w :
  let r := enqueue type params nowCheck uuid nowCreated w in
  (isConnected (queue w) nowCheck = false ->
     r = (AlreadyRejected notConnectedError, w)) /\
  (isConnected (queue w) nowCheck = true ->
     fst r = Awaiting (promiseCount w) /\
     waitingQueue (queue (snd r)) =
       waitingQueue (queue w) ++
       [PendingCommand.mk uuid type params (promiseCount w) nowCreated] /\
     pendingCommands (queue (snd r)) = pendingCommands (queue w) /\
     connectionState (queue (snd r)) = connectionState (queue w) /\
     timeoutInterval (queue (snd r)) = timeoutInterval (queue w) /\
     config (queue (snd r)) = config (queue w) /\
     promiseCount (snd r) = S (promiseCount w) /\
     calls (snd r) = calls w).
Proof.
  intros r. unfold r, enqueue. split; intros ->; simpl; [reflexivity | tauto].
Qed.

Lemma enqueue_checks_connection_first_witness :
  let w0 := start DEFAULT_BRIDGE_CONFIG in
  let w1 := step w0 (OpHeartbeat 0 None None) in
  (isConnected (queue w0) 5 = false /\
   enqueue "ping" [] 5 "a" 5 w0 = (AlreadyRejected notConnectedError, w0)) /\
  (isConnected (queue w1) 5 = true /\
   waitingQueue (queue (snd (enqueue "ping" [] 5 "a" 6 w1))) =
     waitingQueue (queue w1) ++ [PendingCommand.mk "a" "ping" [] (promiseCount w1) 6]).
Proof.
  intros w0 w1. split.
  - split; [reflexivity|].
    apply (proj1 (enqueue_checks_connection_first "ping" [] 5 "a" 5 w0)). reflexivity.
  - split; [reflexivity|].
    apply (proj2 (enqueue_checks_connection_first "ping" [] 5 "a" 6 w1)). reflexivity.
Defined.

Lemma enqueue_spec_connected type params nowCheck uuid nowCreated w :
  isConnected (queue w) nowCheck = true ->
  waitingQueue (queue (snd (enqueue type params nowCheck uuid nowCreated w))) =
    waitingQueue (queue w) ++
    [PendingCommand.mk uuid type params (promiseCount w) nowCreated] /\
  promiseCount (snd (enqueue type params nowCheck uuid nowCreated w)) = S (promiseCount w).
Proof. intros Hc. unfold enqueue. rewrite Hc. simpl. tauto. Qed.

Lemma dequeue_head w c rest :
  waitingQueue (queue w) = c :: rest ->
  dequeue w =
  (Some (serialize c),
   withQueue (fun q =>
     setPendingCommands (JsMap.set (PendingCommand.id c) c (pendingCommands q))
       (setWaitingQueue rest q)) w).
Proof. intros E. unfold dequeue. now rewrite E. Qed.

Lemma dequeue_empty w : waitingQueue (queue w) = [] -> dequeue w = (None, w).
Proof. intros E. unfold dequeue. now rewrite E. Qed.

(** Serving the commands at the front of the waiting queue leaves the rest. *)
Lemma dequeue_front front : forall back w,
  waitingQueue (queue w) = front ++ back ->
  waitingQueue (queue (run w (repeat OpDequeue (List.length front)))) = back.
Proof.
  induction front as [|c front IH]; intros back w E; [exact E|].
  simpl repeat. rewrite run_cons. apply IH.
  cbn [step]. rewrite (dequeue_head w c (front ++ back)) by exact E. reflexivity.
Qed.

(** C5.  Delivery is first in, first out.  Commands A and B enqueued in that
    order while connected stand last in the waiting queue, A before B.
    [dequeue] always returns the view of the head of the queue, which holds
    its identifier, type and parameters and nothing else, moves that command
    to the pending map and leaves the tail; on an empty queue it returns
    [None] and changes nothing.  So once the commands that waited before A
    have been served, the next call returns A's view and the one after
    returns B's; with nothing waiting before A these are the first and the
    second call, and a third finds the queue empty. *)
Theorem delivery_is_fifo w typeA paramsA nowA uuidA createdA typeB paramsB nowB uuidB createdB :
  let wA := snd (enqueue typeA paramsA nowA uuidA createdA w) in
  let wB := snd (enqueue typeB paramsB nowB uuidB createdB wA) in
  let viewA := SerializedCommand.mk uuidA typeA paramsA in
  let viewB := SerializedCommand.mk uuidB typeB paramsB in
  isConnected (queue w) nowA = true ->
  isConnected (queue wA) nowB = true ->
  waitingQueue (queue wB) =
    waitingQueue (queue w) ++
    [PendingCommand.mk uuidA typeA paramsA (promiseCount w) createdA;
     PendingCommand.mk uuidB typeB paramsB (S (promiseCount w)) createdB] /\
  (forall w' c rest, waitingQueue (queue w') = c :: rest ->
     fst (dequeue w') = Some (serialize c) /\
     SerializedCommand.id (serialize c) = PendingCommand.id c /\
     SerializedCommand.type (serialize c) = PendingCommand.type c /\
     SerializedCommand.params (serialize c) = PendingCommand.params c /\
     waitingQueue (queue (snd (dequeue w'))) = rest /\
     pendingCommands (queue (snd (dequeue w'))) =
       JsMap.set (PendingCommand.id c) c (pendingCommands (queue w'))) /\
  (forall w', waitingQueue (queue w') = [] -> dequeue w' = (None, w')) /\
  (let served := run wB (repeat OpDequeue (List.length (waitingQueue (queue w)))) in
   fst (dequeue served) = Some viewA /\
   fst (dequeue (snd (dequeue served))) = Some viewB /\
   fst (dequeue (snd (dequeue (snd (dequeue served))))) = None) /\
  (waitingQueue (queue w) = [] ->
   fst (dequeue wB) = Some viewA /\
   fst (dequeue (snd (dequeue wB))) = Some viewB /\
   fst (dequeue (snd (dequeue (snd (dequeue wB))))) = None).
Proof.
  intros wA wB viewA viewB HcA HcB.
  destruct (enqueue_spec_connected typeA paramsA nowA uuidA createdA w HcA) as (HWA & HPA).
  fold wA in HWA, HPA.
  destruct (enqueue_spec_connected typeB paramsB nowB uuidB createdB wA HcB) as (HWB & HPB).
  fold wB in HWB, HPB.
  assert (HW : waitingQueue (queue wB) =
    waitingQueue (queue w) ++
    [PendingCommand.mk uuidA typeA paramsA (promiseCount w) createdA;
     PendingCommand.mk uuidB typeB paramsB (S (promiseCount w)) createdB]).
  { rewrite HWB, HWA, HPA, <- app_assoc. reflexivity. }
  assert (Hserved : forall s,
    waitingQueue (queue s) =
      [PendingCommand.mk uuidA typeA paramsA (promiseCount w) createdA;
       PendingCommand.mk uuidB typeB paramsB (S (promiseCount w)) createdB] ->
    fst (dequeue s) = Some viewA /\
    fst (dequeue (snd (dequeue s))) = Some viewB /\
    fst (dequeue (snd (dequeue (snd (dequeue s))))) = None).
  { intros s Es.
    assert (E1 : waitingQueue (queue (snd (dequeue s))) =
                 [PendingCommand.mk uuidB typeB paramsB (S (promiseCount w)) createdB])
      by now rewrite (dequeue_head s _ _ Es).
    assert (E2 : waitingQueue (queue (snd (dequeue (snd (dequeue s))))) = [])
      by now rewrite (dequeue_head _ _ _ E1).
    rewrite (dequeue_head _ _ _ E1) at 1. rewrite (dequeue_empty _ E2).
    rewrite (dequeue_head s _ _ Es) at 1. repeat split. }
  split; [exact HW|]. split; [|split; [|split]].
  - intros w' c rest E. rewrite (dequeue_head w' c rest E). simpl. tauto.
  - exact dequeue_empty.
  - apply Hserved. now apply dequeue_front.
  - intros E. apply Hserved. now rewrite HW, E.
Qed.

Lemma delivery_is_fifo_witness :
  let w := step (start DEFAULT_BRIDGE_CONFIG) (OpHeartbeat 0 None None) in
  let wA := snd (enqueue "ping" [] 1 "a" 1 w) in
  let wB := snd (enqueue "pong" [] 2 "b" 2 wA) in
  isConnected (queue w) 1 = true /\
  isConnected (queue wA) 2 = true /\
  waitingQueue (queue w) = [] /\
  fst (dequeue wB) = Some (SerializedCommand.mk "a" "ping" []) /\
  fst (dequeue (snd (dequeue wB))) = Some (SerializedCommand.mk "b" "pong" []) /\
  fst (dequeue (snd (dequeue (snd (dequeue wB))))) = None.
Proof.
  intros w wA wB.
  assert (HA : isConnected (queue w) 1 = true) by reflexivity.
  assert (HB : isConnected (queue wA) 2 = true) by reflexivity.
  assert (HE : waitingQueue (queue w) = []) by reflexivity.
  split; [exact HA|]. split; [exact HB|]. split; [exact HE|].
  destruct (delivery_is_fifo w "ping" [] 1 "a" 1 "pong" [] 2 "b" 2 HA HB)
    as (_ & _ & _ & _ & H).
  exact (H HE).
Defined.

(** C6.  [isConnected] is recomputed from the clock at every call: it is a
    function of the time read and of the state, which it does not change.
    In a run with no heartbeat it answers [false] at every time.  Otherwise,
    with [T] the time of the latest heartbeat, it answers [true] exactly when
    the time read less [T] is strictly less than the heartbeat timeout: at
    every time before [T + heartbeatTimeoutMs], and at no time from then on. *)
Theorem isConnected_follows_latest_heartbeat cfg t now :
  let q := queue (run (start cfg) t) in
  isConnected q now =
    (ConnectionState.connected (connectionState q) &&
     (now - ConnectionState.lastHeartbeat (connectionState q) <? heartbeatTimeoutMs cfg))%bool /\
  match latestHeartbeat None t with
  | None => isConnected q now = false
  | Some T =>
      (isConnected q now = true <-> now - T < heartbeatTimeoutMs cfg) /\
      (now < T + heartbeatTimeoutMs cfg -> isConnected q now = true) /\
      (T + heartbeatTimeoutMs cfg <= now -> isConnected q now = false)
  end.
Proof.
  intros q.
  assert (Hcfg : config q = cfg) by apply config_run.
  assert (Hdef : isConnected q now =
    (ConnectionState.connected (connectionState q) &&
     (now - ConnectionState.lastHeartbeat (connectionState q) <? heartbeatTimeoutMs cfg))%bool).
  { unfold isConnected. rewrite Hcfg.
    now destruct (ConnectionState.connected (connectionState q)). }
  split; [exact Hdef|].
  pose proof (connectionState_run t (start cfg) None eq_refl) as H. fold q in H.
  destruct (latestHeartbeat None t) as [T|].
  - destruct H as [Hc HT]. rewrite Hdef, Hc, HT. simpl.
    rewrite Z.ltb_lt, <- not_true_iff_false, Z.ltb_lt. repeat split; lia.
  - rewrite Hdef, H. reflexivity.
Qed.

Lemma isConnected_follows_latest_heartbeat_witness :
  let cfg := DEFAULT_BRIDGE_CONFIG in
  let t := [OpHeartbeat 1000 None None; OpEnqueue "ping" [] 1001 "a" 1001] in
  let q := queue (run (start cfg) t) in
  latestHeartbeat None t = Some 1000 /\
  (10999 < 1000 + heartbeatTimeoutMs cfg /\ isConnected q 10999 = true) /\
  (1000 + heartbeatTimeoutMs cfg <= 11000 /\ isConnected q 11000 = false).
Proof.
  intros cfg t q.
  pose proof (isConnected_follows_latest_heartbeat cfg t 10999) as (_ & H1).
  pose proof (isConnected_follows_latest_heartbeat cfg t 11000) as (_ & H2).
  change (latestHeartbeat None t) with (Some 1000) in H1, H2.
  destruct H1 as (_ & H1 & _). destruct H2 as (_ & _ & H2).
  assert (L1 : 10999 < 1000 + heartbeatTimeoutMs cfg) by (simpl; lia).
  assert (L2 : 1000 + heartbeatTimeoutMs cfg <= 11000) by (simpl; lia).
  split; [reflexivity|]. split; split; [exact L1 | exact (H1 L1) | exact L2 | exact (H2 L2)].
Defined.

(** C7.  [resolve] with an identifier that is not a key of the pending map
    returns [false] and changes nothing: neither collection, no call.  That
    is so for an identifier that is still in the waiting queue, and for one
    just resolved.  With an identifier that is a key, it returns [true],
    removes that entry and no other, leaves the waiting queue alone, and
    makes exactly one call: the command's resolving function, on the result. *)
Theorem resolve_matches_pending_only result w :
  let key := CommandResult.id result in
  (~ In key (JsMap.keys (pendingCommands (queue w))) ->
     resolve result w = (false, w)) /\
  (wfQueue w -> In key (map PendingCommand.id (waitingQueue (queue w))) ->
     resolve result w = (false, w)) /\
  (In key (JsMap.keys (pendingCommands (queue w))) ->
     exists command,
       JsMap.get key (pendingCommands (queue w)) = Some command /\
       fst (resolve result w) = true /\
       pendingCommands (queue (snd (resolve result w))) =
         JsMap.delete key (pendingCommands (queue w)) /\
       ~ In key (JsMap.keys (pendingCommands (queue (snd (resolve result w))))) /\
       (wfMap (pendingCommands (queue w)) ->
          S (JsMap.size (pendingCommands (queue (snd (resolve result w))))) =
          JsMap.size (pendingCommands (queue w))) /\
       waitingQueue (queue (snd (resolve result w))) = waitingQueue (queue w) /\
       calls (snd (resolve result w)) =
         calls w ++ [CallResolve (PendingCommand.promise command) result] /\
       resolve result (snd (resolve result w)) = (false, snd (resolve result w))).
Proof.
  intros key.
  assert (Habsent : forall s,
    ~ In key (JsMap.keys (pendingCommands (queue s))) -> resolve result s = (false, s)).
  { intros s H. apply get_none_iff in H. unfold resolve. fold key. now rewrite H. }
  split; [apply Habsent|]. split.
  - intros [_ Hown Hids] HI. apply Habsent. rewrite (keys_own _ Hown). intros HP.
    unfold liveCommands in Hids. rewrite map_app in Hids.
    apply in_split in HI as (l1 & l2 & E). rewrite E, <- app_assoc in Hids. simpl in Hids.
    apply NoDup_remove_2 in Hids. apply Hids. rewrite !in_app_iff. tauto.
  - intros HI.
    destruct (JsMap.get key (pendingCommands (queue w))) as [command|] eqn:E;
      [|apply get_none_iff in E; contradiction].
    exists command. split; [reflexivity|].
    assert (Hr : resolve result w =
      (true, callResolve command result
               (withQueue (fun q =>
                  setPendingCommands (JsMap.delete key (pendingCommands q)) q) w))).
    { unfold resolve. fold key. now rewrite E. }
    rewrite Hr. simpl.
    assert (Hgone : ~ In key (JsMap.keys (JsMap.delete key (pendingCommands (queue w))))).
    { apply get_none_iff. apply get_delete. }
    repeat split; try assumption.
    + intros Hwf. destruct (get_split _ _ _ E) as (pre & rest & Hm & _).
      rewrite Hm in *. rewrite delete_entry by assumption.
      unfold JsMap.size. rewrite !length_app. simpl. lia.
    + apply Habsent. exact Hgone.
Qed.

Lemma resolve_matches_pending_only_witness :
  let t := [OpHeartbeat 0 None None; OpEnqueue "ping" [] 0 "a" 0;
            OpEnqueue "pong" [] 5 "b" 5; OpDequeue] in
  let w := run (start DEFAULT_BRIDGE_CONFIG) t in
  let unknown := CommandResult.mk "x" true (Some "pong"%string) None in
  let waiting := CommandResult.mk "b" true (Some "pong"%string) None in
  let answered := CommandResult.mk "a" false None (Some "no such instance"%string) in
  (~ In (CommandResult.id unknown) (JsMap.keys (pendingCommands (queue w))) /\
   resolve unknown w = (false, w)) /\
  (wfQueue w /\
   In (CommandResult.id waiting) (map PendingCommand.id (waitingQueue (queue w))) /\
   resolve waiting w = (false, w)) /\
  (In (CommandResult.id answered) (JsMap.keys (pendingCommands (queue w))) /\
   exists command,
     JsMap.get (CommandResult.id answered) (pendingCommands (queue w)) = Some command /\
     fst (resolve answered w) = true).
Proof.
  intros t w unknown waiting answered.
  assert (H1 : ~ In (CommandResult.id unknown) (JsMap.keys (pendingCommands (queue w)))).
  { simpl. intros [H|[]]. discriminate H. }
  assert (H2 : wfQueue w).
  { apply eo_queue. apply ExactlyOnce_reachable. simpl.
    constructor; [intros [H|[]]; discriminate H|]. repeat constructor. intros []. }
  assert (H3 : In (CommandResult.id waiting) (map PendingCommand.id (waitingQueue (queue w))))
    by (simpl; now left).
  assert (H4 : In (CommandResult.id answered) (JsMap.keys (pendingCommands (queue w))))
    by (simpl; now left).
  split; [|split].
  - split; [exact H1|]. exact (proj1 (resolve_matches_pending_only unknown w) H1).
  - split; [exact H2|]. split; [exact H3|].
    exact (proj1 (proj2 (resolve_matches_pending_only waiting w)) H2 H3).
  - split; [exact H4|].
    destruct (proj2 (proj2 (resolve_matches_pending_only answered w)) H4)
      as (command & Hg & Ht & _).
    exists command. split; [exact Hg | exact Ht].
Defined.

(** C8.  [shutdown] clears the timer, and nothing ever sets it again: after
    [shutdown], whatever is called, the timer stays cleared and a tick changes
    nothing.  It rejects every command of the waiting queue, then every
    command of the pending map, each once, with the "shutting down" error,
    makes no other call, and leaves both collections empty. *)
Theorem shutdown_fails_all_and_stops_the_sweep w :
  let w' := shutdown w in
  timeoutInterval (queue w') = None /\
  waitingQueue (queue w') = [] /\
  pendingCommands (queue w') = JsMap.empty /\
  liveCommands w' = [] /\
  calls w' =
    calls w ++ map (fun cmd => CallReject (PendingCommand.promise cmd) shuttingDownError)
                 (liveCommands w) /\
  (forall cmd, In cmd (liveCommands w) ->
     In (CallReject (PendingCommand.promise cmd) shuttingDownError) (calls w')) /\
  (forall t, timeoutInterval (queue (run w' t)) = None) /\
  (forall t now, step (run w' t) (OpTick now) = run w' t).
Proof.
  intros w'. unfold w'. rewrite shutdown_spec.
  assert (Hcalls :
    calls w ++
      map (rejectionOf (fun _ => shuttingDownError)) (waitingQueue (queue w)) ++
      map (rejectionOf (fun _ => shuttingDownError)) (JsMap.values (pendingCommands (queue w))) =
    calls w ++ map (fun cmd => CallReject (PendingCommand.promise cmd) shuttingDownError)
                 (liveCommands w)).
  { unfold liveCommands. now rewrite map_app. }
  simpl. rewrite Hcalls.
  split; [reflexivity|]. split; [reflexivity|]. split; [reflexivity|].
  split; [reflexivity|]. split; [reflexivity|]. split; [|split].
  - intros cmd HI. apply in_app_iff. right.
    apply (in_map (fun cmd => CallReject (PendingCommand.promise cmd) shuttingDownError)).
    exact HI.
  - intros t. now apply timeoutInterval_run.
  - intros t now. cbn [step]. now rewrite timeoutInterval_run.
Qed.

Lemma shutdown_fails_all_and_stops_the_sweep_witness :
  let t := [OpHeartbeat 0 None None; OpEnqueue "ping" [] 0 "a" 0;
            OpEnqueue "pong" [] 5 "b" 5; OpDequeue] in
  let w := run (start DEFAULT_BRIDGE_CONFIG) t in
  let a := PendingCommand.mk "a" "ping" [] 0 0 in
  let b := PendingCommand.mk "b" "pong" [] 1 5 in
  (In a (liveCommands w) /\ In (CallReject 0 shuttingDownError) (calls (shutdown w))) /\
  (In b (liveCommands w) /\ In (CallReject 1 shuttingDownError) (calls (shutdown w))) /\
  liveCommands (shutdown w) = [].
Proof.
  intros t w a b.
  destruct (shutdown_fails_all_and_stops_the_sweep w) as (_ & _ & _ & HL & _ & H & _).
  assert (Ha : In a (liveCommands w)) by (simpl; tauto).
  assert (Hb : In b (liveCommands w)) by (simpl; tauto).
  split; [|split].
  - split; [exact Ha | exact (H a Ha)].
  - split; [exact Hb | exact (H b Hb)].
  - exact HL.
Defined.

(** C9.  [heartbeat] replaces the whole connection state by: connected, the
    time read, and the two arguments as given.  An argument left out is
    stored as absent, whatever version or session identifier an earlier
    heartbeat had stored.  Nothing else of the queue changes. *)
Theorem heartbeat_overwrites_connection_state now pluginVersion studioSessionId q :
  connectionState (heartbeat now pluginVersion studioSessionId q) =
    ConnectionState.mk true now pluginVersion studioSessionId /\
  (forall earlier version session,
     connectionState (heartbeat now None None (heartbeat earlier (Some version) (Some session) q)) =
     ConnectionState.mk true now None None) /\
  waitingQueue (heartbeat now pluginVersion studioSessionId q) = waitingQueue q /\
  pendingCommands (heartbeat now pluginVersion studioSessionId q) = pendingCommands q /\
  timeoutInterval (heartbeat now pluginVersion studioSessionId q) = timeoutInterval q /\
  config (heartbeat now pluginVersion studioSessionId q) = config q.
Proof. repeat split. Qed.

(** C10.  A matched result is passed to the command's resolving function
    whatever its success flag says; [resolve] makes no other call.  In every
    run, each rejecting call carries a timeout error of the sweep or the
    "shutting down" error, and each resolving call carries a result given to
    [resolve]; the "not connected" error is the only one [enqueue] rejects
    with, on the future it returns. *)
Theorem remote_failure_resolves_the_future cfg t :
  (forall result w command,
     JsMap.get (CommandResult.id result) (pendingCommands (queue w)) = Some command ->
     calls (snd (resolve result w)) =
       calls w ++ [CallResolve (PendingCommand.promise command) result]) /\
  (forall result w,
     JsMap.get (CommandResult.id result) (pendingCommands (queue w)) = None ->
     calls (snd (resolve result w)) = calls w) /\
  (forall p err, In (CallReject p err) (calls (run (start cfg) t)) ->
     err = shuttingDownError \/
     exists cmd, err = neverPickedUpError cfg cmd \/ err = noResultError cfg cmd) /\
  (forall p result, In (CallResolve p result) (calls (run (start cfg) t)) ->
     In (OpResolve result) t) /\
  (forall type params nowCheck uuid nowCreated w err,
     fst (enqueue type params nowCheck uuid nowCreated w) = AlreadyRejected err ->
     err = notConnectedError /\ isConnected (queue w) nowCheck = false).
Proof.
  assert (Hfrom : forall c, In c (calls (run (start cfg) t)) ->
            exists o, In o t /\ explains cfg o c).
  { intros c HI. destruct (calls_run t (start cfg) wfMap_empty) as (extra & E & F).
    simpl in E. rewrite E in HI. rewrite Forall_forall in F. now apply F. }
  split; [|split; [|split; [|split]]].
  - intros result w command E. unfold resolve. now rewrite E.
  - intros result w E. unfold resolve. now rewrite E.
  - intros p err HI. destruct (Hfrom _ HI) as (o & _ & Ho).
    destruct o; simpl in Ho; try contradiction; [right; exact Ho | left; exact Ho].
  - intros p result HI. destruct (Hfrom _ HI) as (o & Hin & Ho).
    destruct o; simpl in Ho; try contradiction. now subst.
  - intros type params nowCheck uuid nowCreated w err. unfold enqueue.
    destruct (isConnected (queue w) nowCheck); simpl; [discriminate|].
    intros [= <-]. split; reflexivity.
Qed.

Lemma remote_failure_resolves_the_future_witness :
  let t := [OpHeartbeat 0 None None; OpEnqueue "ping" [] 0 "a" 0; OpDequeue] in
  let w := run (start DEFAULT_BRIDGE_CONFIG) t in
  let failure := CommandResult.mk "a" false None (Some "no such instance"%string) in
  let a := PendingCommand.mk "a" "ping" [] 0 0 in
  JsMap.get (CommandResult.id failure) (pendingCommands (queue w)) = Some a /\
  calls (snd (resolve failure w)) = calls w ++ [CallResolve 0 failure] /\
  (In (CallReject 0 (noResultError DEFAULT_BRIDGE_CONFIG a))
      (calls (run (start DEFAULT_BRIDGE_CONFIG) (t ++ [OpTick 30001]))) /\
   (noResultError DEFAULT_BRIDGE_CONFIG a = shuttingDownError \/
    exists cmd, noResultError DEFAULT_BRIDGE_CONFIG a = neverPickedUpError DEFAULT_BRIDGE_CONFIG cmd \/
                noResultError DEFAULT_BRIDGE_CONFIG a = noResultError DEFAULT_BRIDGE_CONFIG cmd)).
Proof.
  intros t w failure a.
  assert (Hg : JsMap.get (CommandResult.id failure) (pendingCommands (queue w)) = Some a)
    by reflexivity.
  assert (Hin : In (CallReject 0 (noResultError DEFAULT_BRIDGE_CONFIG a))
                  (calls (run (start DEFAULT_BRIDGE_CONFIG) (t ++ [OpTick 30001]))))
    by (vm_compute; now left).
  split; [exact Hg|]. split.
  - exact (proj1 (remote_failure_resolves_the_future DEFAULT_BRIDGE_CONFIG t)
             failure w a Hg).
  - split; [exact Hin|].
    exact (proj1 (proj2 (proj2
             (remote_failure_resolves_the_future DEFAULT_BRIDGE_CONFIG (t ++ [OpTick 30001]))))
             0%nat _ Hin).
Defined.

(** * Further properties of the code *)

(** ** Helpers *)

(** Induction along the runs in which [uuidv4()] does not repeat itself. *)
Lemma fresh_run_ind (P : Runtime -> Prop) :
  (forall w o, ExactlyOnce w ->
     (forall u, In u (uuids [o]) -> ~ In u (liveIds w)) -> P w -> P (step w o)) ->
  forall t w, ExactlyOnce w -> NoDup (uuids t) ->
    (forall u, In u (uuids t) -> ~ In u (liveIds w)) -> P w -> P (run w t).
Proof.
  intros Hstep. induction t as [|o t IH]; intros w Hw Hnd Hfresh HP; [assumption|].
  rewrite run_cons. rewrite uuids_cons in Hnd, Hfresh.
  assert (Ho : forall u, In u (uuids [o]) -> ~ In u (liveIds w)).
  { intros u Hu. apply Hfresh. apply in_app_iff. now left. }
  apply IH.
  - now apply ExactlyOnce_step.
  - now apply NoDup_app_remove_l in Hnd.
  - intros u Hu HI.
    destruct (wfQueue_step w o (eo_queue w Hw) Ho) as [_ Hincl].
    destruct (Hincl u HI) as [Hold|Hnew].
    + apply (Hfresh u); [apply in_app_iff; now right | assumption].
    + destruct o; simpl in Hnew; try contradiction.
      destruct Hnew as [<-|[]]. simpl in Hnd. inversion Hnd; subst. contradiction.
  - now apply Hstep.
Qed.



(** Setting a key that is present replaces its entry where it stands. *)
Lemma set_present {V : Type} k (v old : V) m :
  JsMap.get k m = Some old ->
  exists pre post,
    m = pre ++ (k, old) :: post /\ JsMap.set k v m = pre ++ (k, v) :: post.
Proof.
  induction m as [|[k' v'] m IH]; simpl; [discriminate|].
  destruct (String.eqb_spec k k') as [->|Hne].
  - intros [= ->]. now exists [], m.
  - intros H. destruct (IH H) as (pre & post & -> & ->).
    now exists ((k', v') :: pre), post.
Qed.

Lemma length_filter_partition {A : Type} (f : A -> bool) (l : list A) :
  (List.length (filter f l) + List.length (filter (fun x => negb (f x)) l))%nat = List.length l.
Proof.
  induction l as [|x l IH]; simpl; [reflexivity|]. destruct (f x); simpl; lia.
Qed.

Lemma settlement_app p cs extra :
  settlement p (cs ++ extra) =
  match settlement p cs with
  | Some c => Some c
  | None => settlement p extra
  end.
Proof.
  induction cs as [|c cs IH]; simpl; [reflexivity|].
  now destruct (Nat.eqb (callPromise c) p).
Qed.


Lemma settlement_none_iff p cs : settlement p cs = None <-> fired p cs = 0%nat.
Proof.
  unfold fired. induction cs as [|c cs IH]; simpl; [tauto|].
  destruct (Nat.eqb (callPromise c) p); simpl; [split; discriminate | exact IH].
Qed.

(** In a list of commands of which one holds [p], the first rejection on [p]
    is that command's. *)
Lemma settlement_rejections p err cmd cmds :
  In cmd cmds -> PendingCommand.promise cmd = p -> (held p cmds <= 1)%nat ->
  settlement p (map (rejectionOf err) cmds) = Some (rejectionOf err cmd).
Proof.
  intros HI Hp. induction cmds as [|c cmds IH]; [destruct HI|].
  change (c :: cmds) with ([c] ++ cmds). rewrite held_app, held_one. simpl.
  destruct HI as [->|HI].
  - rewrite Hp, Nat.eqb_refl. reflexivity.
  - destruct (Nat.eqb_spec (PendingCommand.promise c) p) as [E|Hne]; intros Hle.
    + pose proof (held_filter_ge p (fun _ => true) cmd cmds HI eq_refl Hp) as Hge.
      assert (Hf : filter (fun _ : PendingCommand.t => true) cmds = cmds).
      { clear. induction cmds as [|x l IH]; simpl; [reflexivity | now rewrite IH]. }
      rewrite Hf in Hge. lia.
    + apply IH; [assumption | lia].
Qed.

(** ** The queue *)

Lemma open_count_step w o :
  ExactlyOnce w ->
  (List.length (waitingQueue (queue w)) + JsMap.size (pendingCommands (queue w)) +
   List.length (calls w))%nat = promiseCount w ->
  (List.length (waitingQueue (queue (step w o))) +
   JsMap.size (pendingCommands (queue (step w o))) +
   List.length (calls (step w o)))%nat = promiseCount (step w o).
Proof.
  intros Hex H. pose proof (eo_queue w Hex) as Hq. pose proof (wf_keys w Hq) as Hm.
  unfold JsMap.size in *.
  destruct o as [ty ps n1 u n2| |r|n v s|n|]; cbn [step].
  - unfold enqueue. destruct (isConnected (queue w) n1); simpl; [|exact H].
    rewrite length_app. simpl. lia.
  - unfold dequeue. destruct (waitingQueue (queue w)) as [|c rest] eqn:E; simpl;
      [now rewrite E|].
    rewrite set_fresh by (now apply (head_not_pending w c rest)).
    rewrite length_app. simpl in *. lia.
  - unfold resolve.
    destruct (JsMap.get (CommandResult.id r) (pendingCommands (queue w))) as [c|] eqn:E;
      simpl; [|exact H].
    destruct (get_split _ _ _ E) as (pre & rest & Hp & _).
    rewrite Hp in *. rewrite delete_entry by assumption.
    rewrite !length_app in *. simpl in *. lia.
  - exact H.
  - destruct (timeoutInterval (queue w)); [|exact H].
    rewrite sweep_spec by assumption. simpl.
    rewrite !length_app, !length_map.
    rewrite <- (values_filter (expired (config (queue w)) n)).
    unfold JsMap.values. rewrite length_map.
    pose proof (length_filter_partition (expired (config (queue w)) n) (waitingQueue (queue w))).
    pose proof (length_filter_partition (fun e => expired (config (queue w)) n (snd e))
                  (pendingCommands (queue w))).
    simpl in *. lia.
  - rewrite shutdown_spec. simpl. rewrite !length_app, !length_map.
    unfold JsMap.values. rewrite length_map. lia.
Qed.

(** X1.  The two counts of [getStats], which [/health] and [/heartbeat]
    report, count exactly the commands enqueued and not yet settled: in every
    run in which [uuidv4()] does not repeat itself, waiting plus pending plus
    the calls made is the number of commands ever accepted. *)
Theorem stats_count_the_open_commands cfg t startTime nowUptime nowConnection nowStats :
  NoDup (uuids t) ->
  let w := run (start cfg) t in
  let stats := getStats (queue w) nowStats in
  (waitingCount stats + pendingCount stats + List.length (calls w))%nat = promiseCount w /\
  healthRoute startTime nowUptime nowConnection nowStats w =
    mkResponse 200
      (Some (JsonHealth (nowUptime - startTime)
               (getConnectionState (queue w) nowConnection) stats)).
Proof.
  intros Hnd w stats. split; [|reflexivity].
  unfold stats, getStats. simpl. unfold w.
  apply (fresh_run_ind (fun w =>
    (List.length (waitingQueue (queue w)) + JsMap.size (pendingCommands (queue w)) +
     List.length (calls w))%nat = promiseCount w)).
  - intros w0 o Hex _ H. now apply open_count_step.
  - apply ExactlyOnce_start.
  - assumption.
  - intros u _ [].
  - reflexivity.
Qed.

Lemma stats_count_the_open_commands_witness :
  let t := [OpHeartbeat 0 None None; OpEnqueue "ping" [] 0 "a" 0;
            OpEnqueue "pong" [] 5 "b" 5; OpEnqueue "peng" [] 6 "c" 6; OpDequeue;
            OpResolve (CommandResult.mk "a" true None None)] in
  let w := run (start DEFAULT_BRIDGE_CONFIG) t in
  NoDup (uuids t) /\
  promiseCount w = 3%nat /\
  (waitingCount (getStats (queue w) 7) + pendingCount (getStats (queue w) 7) +
   List.length (calls w))%nat = promiseCount w.
Proof.
  intros t w.
  assert (Hnd : NoDup (uuids t)).
  { simpl. repeat constructor; simpl; intuition discriminate. }
  split; [exact Hnd|]. split; [reflexivity|].
  exact (proj1 (stats_count_the_open_commands DEFAULT_BRIDGE_CONFIG t 0 7 7 7 Hnd)).
Defined.

(** X2.  Whatever identifiers [uuidv4()] returns, repeated or not, no promise
    is ever held by two commands, or held and called, or called twice; and a
    promise [enqueue] has not created yet is neither held nor called. *)
Theorem no_promise_is_held_or_called_twice cfg t p :
  let w := run (start cfg) t in
  (inWaiting p w + inPending p w + fired p (calls w) <= 1)%nat /\
  ((promiseCount w <= p)%nat ->
     inWaiting p w = 0%nat /\ inPending p w = 0%nat /\ fired p (calls w) = 0%nat).
Proof.
  intros w. pose proof (AtMostOnce_run t _ (AtMostOnce_start cfg)) as [_ Ht Hu].
  fold w in Ht, Hu. split; [exact (Ht p)|].
  intros Hp. specialize (Hu p Hp). unfold total in Hu. lia.
Qed.

Lemma no_promise_is_held_or_called_twice_witness :
  let t := [OpHeartbeat 0 None None; OpEnqueue "ping" [] 0 "a" 0;
            OpEnqueue "pong" [] 1 "a" 1; OpDequeue; OpDequeue; OpShutdown] in
  let w := run (start DEFAULT_BRIDGE_CONFIG) t in
  (promiseCount w <= 2)%nat /\
  (inWaiting 2 w = 0%nat /\ inPending 2 w = 0%nat /\ fired 2 (calls w) = 0%nat) /\
  (inWaiting 0 w + inPending 0 w + fired 0 (calls w) <= 1)%nat.
Proof.
  intros t w.
  assert (Hp : (promiseCount w <= 2)%nat) by (vm_compute; lia).
  split; [exact Hp|]. split.
  - exact (proj2 (no_promise_is_held_or_called_twice DEFAULT_BRIDGE_CONFIG t 2) Hp).
  - exact (proj1 (no_promise_is_held_or_called_twice DEFAULT_BRIDGE_CONFIG t 0)).
Defined.

(** X3.  After any run, [enqueue] accepts a command exactly when there has
    been a heartbeat and the latest one is less than the heartbeat timeout
    before the time [enqueue] reads; otherwise the future it returns is
    already rejected with the "not connected" error.  [shutdown] does not
    enter into it. *)
Theorem enqueue_accepts_within_the_heartbeat_window
    cfg t type params nowCheck uuid nowCreated :
  let w := run (start cfg) t in
  fst (enqueue type params nowCheck uuid nowCreated w) =
  match latestHeartbeat None t with
  | Some T =>
      if nowCheck - T <? heartbeatTimeoutMs cfg
      then Awaiting (promiseCount w)
      else AlreadyRejected notConnectedError
  | None => AlreadyRejected notConnectedError
  end.
Proof.
  intros w. unfold enqueue, isConnected.
  pose proof (connectionState_run t (start cfg) None eq_refl) as H. fold w in H.
  assert (Hcfg : config (queue w) = cfg) by apply config_run.
  destruct (latestHeartbeat None t) as [T|].
  - destruct H as [-> ->]. rewrite Hcfg. simpl.
    now destruct (nowCheck - T <? heartbeatTimeoutMs cfg).
  - now rewrite H.
Qed.

Lemma latestHeartbeat_seen T t : latestHeartbeat (Some T) t <> None.
Proof.
  revert T. induction t as [|o t IH]; intros T; [discriminate|].
  destruct o; simpl; apply IH.
Qed.

Lemma connectionState_without_heartbeat t : forall w,
  latestHeartbeat None t = None ->
  connectionState (queue (run w t)) = connectionState (queue w).
Proof.
  induction t as [|o t IH]; intros w H; [reflexivity|].
  rewrite run_cons.
  destruct o as [ty ps n1 u n2| |r|n v s|n|]; cbn [latestHeartbeat] in H;
    try (rewrite IH by assumption; now rewrite connectionState_step).
  now apply latestHeartbeat_seen in H.
Qed.

(** X4.  [getConnectionState] and [getStats] recompute [connected] from the
    clock while the stored flag stays [true]: whatever has run before a
    heartbeat and whatever runs after it short of another heartbeat, the state
    reported is that heartbeat's time, version and session identifier, with
    [connected] true exactly while less than the heartbeat timeout has
    passed. *)
Theorem getConnectionState_reports_the_latest_heartbeat cfg before T version session after now :
  latestHeartbeat None after = None ->
  let q := queue (run (start cfg) (before ++ OpHeartbeat T version session :: after)) in
  getConnectionState q now =
    ConnectionState.mk (now - T <? heartbeatTimeoutMs cfg) T version session /\
  connected (getStats q now) = (now - T <? heartbeatTimeoutMs cfg) /\
  ConnectionState.connected (connectionState q) = true.
Proof.
  intros Hafter q.
  assert (Hcs : connectionState q = ConnectionState.mk true T version session).
  { unfold q. rewrite run_app, run_cons, connectionState_without_heartbeat by assumption.
    now rewrite connectionState_step. }
  assert (Hcfg : config q = cfg) by apply config_run.
  unfold getConnectionState, getStats, isConnected. rewrite Hcs, Hcfg. simpl. tauto.
Qed.

Lemma getConnectionState_reports_the_latest_heartbeat_witness :
  let after := [OpEnqueue "ping" [] 1 "a" 1; OpDequeue; OpTick 40000] in
  let q := queue (run (start DEFAULT_BRIDGE_CONFIG)
                    ([OpHeartbeat 0 None None] ++
                     OpHeartbeat 500 (Some "1.0.0"%string) None :: after)) in
  latestHeartbeat None after = None /\
  getConnectionState q 10500 =
    ConnectionState.mk false 500 (Some "1.0.0"%string) None /\
  ConnectionState.connected (connectionState q) = true.
Proof.
  intros after q.
  assert (H : latestHeartbeat None after = None) by reflexivity.
  destruct (getConnectionState_reports_the_latest_heartbeat DEFAULT_BRIDGE_CONFIG
              [OpHeartbeat 0 None None] 500 (Some "1.0.0"%string) None after 10500 H)
    as (H1 & _ & H3).
  split; [exact H|]. split; [exact H1 | exact H3].
Defined.

(** X5.  [dequeue] does not check the identifier of the command it moves: if
    the pending map already holds a command under it, that entry is replaced
    where it stands and no call is made, so the command that was pending is
    dropped with its future unsettled. *)
Theorem dequeue_overwrites_a_repeated_identifier w c rest old :
  waitingQueue (queue w) = c :: rest ->
  JsMap.get (PendingCommand.id c) (pendingCommands (queue w)) = Some old ->
  exists pre post,
    pendingCommands (queue w) = pre ++ (PendingCommand.id c, old) :: post /\
    pendingCommands (queue (snd (dequeue w))) = pre ++ (PendingCommand.id c, c) :: post /\
    waitingQueue (queue (snd (dequeue w))) = rest /\
    calls (snd (dequeue w)) = calls w /\
    JsMap.size (pendingCommands (queue (snd (dequeue w)))) =
      JsMap.size (pendingCommands (queue w)).
Proof.
  intros E Hg. rewrite (dequeue_head w c rest E). simpl.
  destruct (set_present (PendingCommand.id c) c old _ Hg) as (pre & post & Hm & Hs).
  exists pre, post. rewrite Hs. repeat split; try assumption.
  rewrite Hm. unfold JsMap.size. rewrite !length_app. reflexivity.
Qed.

Lemma dequeue_overwrites_a_repeated_identifier_witness :
  let w := run (start DEFAULT_BRIDGE_CONFIG)
             [OpHeartbeat 0 None None; OpEnqueue "ping" [] 0 "a" 0;
              OpEnqueue "pong" [] 1 "a" 1; OpDequeue] in
  let old := PendingCommand.mk "a" "ping" [] 0 0 in
  let c := PendingCommand.mk "a" "pong" [] 1 1 in
  waitingQueue (queue w) = [c] /\
  JsMap.get (PendingCommand.id c) (pendingCommands (queue w)) = Some old /\
  exists pre post,
    pendingCommands (queue w) = pre ++ (PendingCommand.id c, old) :: post /\
    pendingCommands (queue (snd (dequeue w))) = pre ++ (PendingCommand.id c, c) :: post.
Proof.
  intros w old c.
  assert (E : waitingQueue (queue w) = [c]) by reflexivity.
  assert (G : JsMap.get (PendingCommand.id c) (pendingCommands (queue w)) = Some old)
    by reflexivity.
  split; [exact E|]. split; [exact G|].
  destruct (dequeue_overwrites_a_repeated_identifier w c [] old E G)
    as (pre & post & H1 & H2 & _).
  exists pre, post. split; [exact H1 | exact H2].
Defined.

Lemma filter_of_subfilter {A : Type} (f g : A -> bool) (l : list A) :
  (forall x, f x = true -> g x = true) -> filter f (filter g l) = filter f l.
Proof.
  intros H. induction l as [|x l IH]; simpl; [reflexivity|].
  destruct (g x) eqn:Eg; simpl; destruct (f x) eqn:Ef; try (now rewrite IH).
  apply H in Ef. congruence.
Qed.

Lemma filter_of_disjoint {A : Type} (f g : A -> bool) (l : list A) :
  (forall x, g x = true -> f x = false) -> filter f (filter g l) = [].
Proof.
  intros H. induction l as [|x l IH]; simpl; [reflexivity|].
  destruct (g x) eqn:Eg; simpl; [|exact IH]. now rewrite (H x Eg).
Qed.

(** X6.  A second sweep at the same time does nothing, and after a sweep no
    command the queue still holds is older than the command timeout. *)
Theorem sweep_is_idempotent now w :
  wfMap (pendingCommands (queue w)) ->
  sweep now (sweep now w) = sweep now w /\
  (forall cmd, In cmd (liveCommands (sweep now w)) ->
     now - PendingCommand.createdAt cmd <= commandTimeoutMs (config (queue w))).
Proof.
  intros Hwf. set (cfg := config (queue w)).
  set (keep := fun cmd => negb (expired cfg now cmd)).
  set (keepE := fun e : string * PendingCommand.t => negb (expired cfg now (snd e))).
  assert (Hwf' : wfMap (pendingCommands (queue (sweep now w)))).
  { rewrite sweep_spec by assumption. simpl. now apply NoDup_map_filter. }
  split.
  - rewrite (sweep_spec now (sweep now w)) by assumption.
    rewrite (sweep_spec now w) by assumption. simpl. fold cfg keep keepE.
    rewrite (filter_of_subfilter keep keep) by auto.
    rewrite (filter_of_subfilter keepE keepE) by auto.
    rewrite (filter_of_disjoint (expired cfg now) keep)
      by (intros x Hx; unfold keep in Hx; now destruct (expired cfg now x)).
    rewrite (values_filter keep).
    rewrite (filter_of_disjoint (expired cfg now) keep)
      by (intros x Hx; unfold keep in Hx; now destruct (expired cfg now x)).
    simpl. now rewrite !app_nil_r.
  - rewrite sweep_spec by assumption. unfold liveCommands. simpl. fold cfg keep keepE.
    rewrite (values_filter keep). intros cmd HI.
    assert (Hk : keep cmd = true).
    { apply in_app_iff in HI as [HI|HI]; apply filter_In in HI; tauto. }
    unfold keep in Hk. destruct (expired cfg now cmd) eqn:E; [discriminate|].
    pose proof (expired_iff cfg now cmd) as Hiff. rewrite E in Hiff.
    destruct (Z_le_gt_dec (now - PendingCommand.createdAt cmd) (commandTimeoutMs cfg));
      [assumption|]. apply Hiff in g. discriminate.
Qed.

Lemma sweep_is_idempotent_witness :
  let w := run (start DEFAULT_BRIDGE_CONFIG)
             [OpHeartbeat 0 None None; OpEnqueue "ping" [] 0 "a" 0;
              OpEnqueue "pong" [] 5000 "b" 5000; OpDequeue] in
  wfMap (pendingCommands (queue w)) /\
  sweep 30001 (sweep 30001 w) = sweep 30001 w /\
  liveCommands (sweep 30001 w) = [PendingCommand.mk "b" "pong" [] 1 5000].
Proof.
  intros w.
  assert (Hwf : wfMap (pendingCommands (queue w))).
  { unfold wfMap. simpl. repeat constructor. intros []. }
  split; [exact Hwf|]. split; [|reflexivity].
  exact (proj1 (sweep_is_idempotent 30001 w Hwf)).
Defined.

Lemma expired_later cfg n1 n2 cmd :
  n1 <= n2 -> expired cfg n1 cmd = true -> expired cfg n2 cmd = true.
Proof. rewrite !expired_iff. lia. Qed.

Lemma filter_catch_up {A : Type} (e1 e2 : A -> bool) (l : list A) :
  (forall x, e1 x = true -> e2 x = true) ->
  Permutation (filter e1 l ++ filter e2 (filter (fun x => negb (e1 x)) l)) (filter e2 l).
Proof.
  intros H. induction l as [|x l IH]; simpl; [constructor|].
  destruct (e1 x) eqn:E1; simpl.
  - rewrite (H x E1). now constructor.
  - destruct (e2 x); [|exact IH].
    apply Permutation_sym. eapply Permutation_trans; [|apply Permutation_middle].
    constructor. now apply Permutation_sym.
Qed.

(** X7.  A tick that comes late makes up for the ones before it: sweeping at
    a time and then at a later time leaves the same queue as sweeping once at
    the later time, and the calls made are the same up to their order. *)
Theorem a_later_sweep_catches_up n1 n2 w :
  wfMap (pendingCommands (queue w)) ->
  n1 <= n2 ->
  queue (sweep n2 (sweep n1 w)) = queue (sweep n2 w) /\
  Permutation (calls (sweep n2 (sweep n1 w))) (calls (sweep n2 w)).
Proof.
  intros Hwf Hle. set (cfg := config (queue w)).
  assert (Hwf' : wfMap (pendingCommands (queue (sweep n1 w)))).
  { rewrite sweep_spec by assumption. simpl. now apply NoDup_map_filter. }
  rewrite (sweep_spec n2 (sweep n1 w)) by assumption.
  rewrite (sweep_spec n1 w) by assumption.
  rewrite (sweep_spec n2 w) by assumption. simpl. fold cfg.
  set (k1 := fun cmd => negb (expired cfg n1 cmd)).
  set (k2 := fun cmd => negb (expired cfg n2 cmd)).
  assert (Hk : forall x, k2 x = true -> k1 x = true).
  { intros x. unfold k1, k2. destruct (expired cfg n1 x) eqn:E; [|reflexivity].
    now rewrite (expired_later cfg n1 n2 x Hle E). }
  split.
  - unfold setPendingCommands, setWaitingQueue. simpl. f_equal.
    + now apply (filter_of_subfilter k2 k1).
    + apply (filter_of_subfilter (fun e => k2 (snd e)) (fun e => k1 (snd e))).
      intros x. apply Hk.
  - rewrite (values_filter k1). rewrite <- !app_assoc.
    apply Permutation_app_head.
    set (rW := rejectionOf (neverPickedUpError cfg)).
    set (rP := rejectionOf (noResultError cfg)).
    set (W := waitingQueue (queue w)).
    set (V := JsMap.values (pendingCommands (queue w))).
    apply Permutation_trans with
      ((map rW (filter (expired cfg n1) W) ++ map rW (filter (expired cfg n2) (filter k1 W))) ++
       (map rP (filter (expired cfg n1) V) ++ map rP (filter (expired cfg n2) (filter k1 V)))).
    + rewrite <- !app_assoc. apply Permutation_app_head.
      rewrite !app_assoc. apply Permutation_app_tail. apply Permutation_app_comm.
    + apply Permutation_app; rewrite <- map_app; apply Permutation_map;
        apply filter_catch_up; intros x; now apply expired_later.
Qed.

Lemma a_later_sweep_catches_up_witness :
  let w := run (start DEFAULT_BRIDGE_CONFIG)
             [OpHeartbeat 0 None None; OpEnqueue "ping" [] 0 "a" 0;
              OpEnqueue "pong" [] 5000 "b" 5000; OpDequeue] in
  wfMap (pendingCommands (queue w)) /\
  30001 <= 36000 /\
  queue (sweep 36000 (sweep 30001 w)) = queue (sweep 36000 w) /\
  Permutation (calls (sweep 36000 (sweep 30001 w))) (calls (sweep 36000 w)).
Proof.
  intros w.
  assert (Hwf : wfMap (pendingCommands (queue w))).
  { unfold wfMap. simpl. repeat constructor. intros []. }
  assert (Hle : 30001 <= 36000) by lia.
  split; [exact Hwf|]. split; [exact Hle|].
  exact (a_later_sweep_catches_up 30001 36000 w Hwf Hle).
Defined.

(** X8.  [shutdown] can be called again: the second call makes no call and
    changes nothing. *)
Theorem shutdown_is_idempotent w :
  shutdown (shutdown w) = shutdown w /\
  calls (shutdown (shutdown w)) = calls (shutdown w).
Proof.
  assert (H : shutdown (shutdown w) = shutdown w).
  { rewrite (shutdown_spec (shutdown w)). rewrite (shutdown_spec w). simpl.
    now rewrite app_nil_r. }
  split; [exact H | now rewrite H].
Qed.

Lemma held_in p cmd cmds :
  In cmd cmds -> PendingCommand.promise cmd = p -> (1 <= held p cmds)%nat.
Proof.
  intros HI Hp. apply in_split in HI as (l1 & l2 & ->).
  change (cmd :: l2) with ([cmd] ++ l2).
  rewrite !held_app, held_one, Hp, Nat.eqb_refl. lia.
Qed.

Lemma held_filter_le p (f : PendingCommand.t -> bool) cmds :
  (held p (filter f cmds) <= held p cmds)%nat.
Proof. pose proof (held_partition p f cmds). lia. Qed.

Lemma settlement_rejections_none p err cmds :
  held p cmds = 0%nat -> settlement p (map (rejectionOf err) cmds) = None.
Proof. intros H. apply settlement_none_iff. now rewrite fired_rejections. Qed.

(** ** The caller's side: [executeCommand] *)

Section ToolAnswers.
Variable stringify : option string -> string.

(** X9.  When a running timer ticks on a command older than the command
    timeout, the caller awaiting it gets the error of the place the command
    was in: "never picked it up" if it was still waiting, "did not return a
    result" if it had been delivered; [executeCommand] answers with that
    message after "Bridge error: ".  This holds whatever identifiers
    [uuidv4()] returned. *)
Theorem swept_caller_is_told_where_the_command_stopped cfg t now cmd :
  let w := run (start cfg) t in
  timeoutInterval (queue w) <> None ->
  now - PendingCommand.createdAt cmd > commandTimeoutMs cfg ->
  (In cmd (waitingQueue (queue w)) ->
     await (Awaiting (PendingCommand.promise cmd)) (calls (step w (OpTick now))) =
       Some (Thrown (neverPickedUpError cfg cmd)) /\
     option_map (formatOutcome stringify)
       (await (Awaiting (PendingCommand.promise cmd)) (calls (step w (OpTick now)))) =
       Some (mkToolResult [bridgeErrorText (neverPickedUpError cfg cmd)])) /\
  (In cmd (JsMap.values (pendingCommands (queue w))) ->
     await (Awaiting (PendingCommand.promise cmd)) (calls (step w (OpTick now))) =
       Some (Thrown (noResultError cfg cmd)) /\
     option_map (formatOutcome stringify)
       (await (Awaiting (PendingCommand.promise cmd)) (calls (step w (OpTick now)))) =
       Some (mkToolResult [bridgeErrorText (noResultError cfg cmd)])).
Proof.
  intros w Hti Hage. set (p := PendingCommand.promise cmd).
  pose proof (AtMostOnce_run t _ (AtMostOnce_start cfg)) as [Hm Ht _]. fold w in Hm, Ht.
  specialize (Ht p). unfold total, inWaiting, inPending in Ht.
  assert (Hcfg : config (queue w) = cfg) by apply config_run.
  assert (He : expired cfg now cmd = true) by now apply expired_iff.
  cbn [step]. destruct (timeoutInterval (queue w)); [|congruence].
  rewrite sweep_spec by assumption. rewrite Hcfg. simpl.
  split; intros HI.
  - pose proof (held_in p cmd _ HI eq_refl) as Hh.
    assert (Hs : settlement p
              (calls w ++
               map (rejectionOf (neverPickedUpError cfg))
                 (filter (expired cfg now) (waitingQueue (queue w))) ++
               map (rejectionOf (noResultError cfg))
                 (filter (expired cfg now) (JsMap.values (pendingCommands (queue w))))) =
            Some (rejectionOf (neverPickedUpError cfg) cmd)).
    { rewrite settlement_app.
      replace (settlement p (calls w)) with (@None Call)
        by (symmetry; apply settlement_none_iff; lia).
      rewrite settlement_app.
      rewrite (settlement_rejections p _ cmd); [reflexivity | | reflexivity |].
      - apply filter_In. now split.
      - pose proof (held_filter_le p (expired cfg now) (waitingQueue (queue w))). lia. }
    rewrite Hs. simpl. split; reflexivity.
  - pose proof (held_in p cmd _ HI eq_refl) as Hh.
    assert (Hs : settlement p
              (calls w ++
               map (rejectionOf (neverPickedUpError cfg))
                 (filter (expired cfg now) (waitingQueue (queue w))) ++
               map (rejectionOf (noResultError cfg))
                 (filter (expired cfg now) (JsMap.values (pendingCommands (queue w))))) =
            Some (rejectionOf (noResultError cfg) cmd)).
    { rewrite settlement_app.
      replace (settlement p (calls w)) with (@None Call)
        by (symmetry; apply settlement_none_iff; lia).
      rewrite settlement_app.
      rewrite settlement_rejections_none.
      - apply (settlement_rejections p _ cmd); [| reflexivity |].
        + apply filter_In. now split.
        + pose proof (held_filter_le p (expired cfg now)
                        (JsMap.values (pendingCommands (queue w)))). lia.
      - pose proof (held_filter_le p (expired cfg now) (waitingQueue (queue w))). lia. }
    rewrite Hs. simpl. split; reflexivity.
Qed.

(** X10.  [shutdown] answers every caller still waiting: whichever collection
    its command is in, the future is rejected with the "shutting down" error
    and [executeCommand] answers "Bridge error: MCP server shutting down". *)
Theorem shutdown_answers_every_open_caller cfg t cmd :
  let w := run (start cfg) t in
  In cmd (liveCommands w) ->
  await (Awaiting (PendingCommand.promise cmd)) (calls (shutdown w)) =
    Some (Thrown shuttingDownError) /\
  option_map (formatOutcome stringify)
    (await (Awaiting (PendingCommand.promise cmd)) (calls (shutdown w))) =
    Some (mkToolResult ["Bridge error: MCP server shutting down"%string]).
Proof.
  intros w HI. set (p := PendingCommand.promise cmd).
  pose proof (AtMostOnce_run t _ (AtMostOnce_start cfg)) as [Hm Ht _]. fold w in Hm, Ht.
  specialize (Ht p). unfold total, inWaiting, inPending in Ht.
  assert (Hs : settlement p (calls (shutdown w)) =
               Some (CallReject p shuttingDownError)).
  { rewrite shutdown_spec. simpl. rewrite settlement_app.
    unfold liveCommands in HI. apply in_app_iff in HI as [HI|HI];
      pose proof (held_in p cmd _ HI eq_refl) as Hh;
      (replace (settlement p (calls w)) with (@None Call)
         by (symmetry; apply settlement_none_iff; lia));
      rewrite settlement_app.
    - rewrite (settlement_rejections p _ cmd); [reflexivity | assumption | reflexivity | lia].
    - rewrite settlement_rejections_none by lia.
      rewrite (settlement_rejections p _ cmd); [reflexivity | assumption | reflexivity | lia]. }
  unfold await. fold p. rewrite Hs. simpl. split; reflexivity.
Qed.

(** X11.  [executeCommand] answers at once only when the plugin is not
    connected: then its answer is "Bridge error: " and the "not connected"
    message, whatever happens later, and the queue is untouched.  When the
    plugin is connected it has enqueued one command and has no answer yet. *)
Theorem executeCommand_answers_at_once_only_when_disconnected
    cfg t type params nowCheck uuid nowCreated :
  let w := run (start cfg) t in
  let r := executeCommand stringify type params nowCheck uuid nowCreated w in
  (isConnected (queue w) nowCheck = false ->
     snd r = w /\
     forall cs, fst r cs = Some (mkToolResult [bridgeErrorText notConnectedError])) /\
  (isConnected (queue w) nowCheck = true ->
     snd r = step w (OpEnqueue type params nowCheck uuid nowCreated) /\
     waitingQueue (queue (snd r)) =
       waitingQueue (queue w) ++
       [PendingCommand.mk uuid type params (promiseCount w) nowCreated] /\
     fst r (calls (snd r)) = None).
Proof.
  intros w r. unfold r, executeCommand. split; intros Hc.
  - rewrite enqueue_disconnected by assumption. simpl. split; reflexivity.
  - split; [reflexivity|]. unfold enqueue. rewrite Hc. simpl.
    split; [reflexivity|].
    pose proof (AtMostOnce_run t _ (AtMostOnce_start cfg)) as [_ _ Hu]. fold w in Hu.
    specialize (Hu (promiseCount w) (Nat.le_refl _)). unfold total in Hu.
    replace (settlement (promiseCount w) (calls w)) with (@None Call)
      by (symmetry; apply settlement_none_iff; lia).
    reflexivity.
Qed.


End ToolAnswers.

Lemma swept_caller_is_told_where_the_command_stopped_witness :
  let stringify := fun d : option string => match d with Some s => s | None => "null"%string end in
  let t := [OpHeartbeat 0 None None; OpEnqueue "ping" [] 0 "a" 0;
            OpEnqueue "pong" [] 5 "b" 5; OpDequeue] in
  let w := run (start DEFAULT_BRIDGE_CONFIG) t in
  let a := PendingCommand.mk "a" "ping" [] 0 0 in
  let b := PendingCommand.mk "b" "pong" [] 1 5 in
  timeoutInterval (queue w) <> None /\
  (In b (waitingQueue (queue w)) /\
   option_map (formatOutcome stringify)
     (await (Awaiting 1) (calls (step w (OpTick 30006)))) =
   Some (mkToolResult
           ["Bridge error: Command 'pong' timed out after 30000ms — plugin never picked it up"%string])) /\
  (In a (JsMap.values (pendingCommands (queue w))) /\
   option_map (formatOutcome stringify)
     (await (Awaiting 0) (calls (step w (OpTick 30006)))) =
   Some (mkToolResult
           ["Bridge error: Command 'ping' timed out after 30000ms — plugin did not return a result"%string])).
Proof.
  intros stringify t w a b.
  assert (Hti : timeoutInterval (queue w) <> None) by discriminate.
  assert (Hb : In b (waitingQueue (queue w))) by (simpl; tauto).
  assert (Ha : In a (JsMap.values (pendingCommands (queue w)))) by (simpl; tauto).
  assert (Hage_b : 30006 - PendingCommand.createdAt b > commandTimeoutMs DEFAULT_BRIDGE_CONFIG)
    by (simpl; lia).
  assert (Hage_a : 30006 - PendingCommand.createdAt a > commandTimeoutMs DEFAULT_BRIDGE_CONFIG)
    by (simpl; lia).
  split; [exact Hti|]. split.
  - split; [exact Hb|].
    exact (proj2 (proj1 (swept_caller_is_told_where_the_command_stopped stringify
                           DEFAULT_BRIDGE_CONFIG t 30006 b Hti Hage_b) Hb)).
  - split; [exact Ha|].
    exact (proj2 (proj2 (swept_caller_is_told_where_the_command_stopped stringify
                           DEFAULT_BRIDGE_CONFIG t 30006 a Hti Hage_a) Ha)).
Defined.

Lemma shutdown_answers_every_open_caller_witness :
  let stringify := fun d : option string => match d with Some s => s | None => "null"%string end in
  let t := [OpHeartbeat 0 None None; OpEnqueue "ping" [] 0 "a" 0;
            OpEnqueue "pong" [] 5 "b" 5; OpDequeue] in
  let w := run (start DEFAULT_BRIDGE_CONFIG) t in
  let b := PendingCommand.mk "b" "pong" [] 1 5 in
  In b (liveCommands w) /\
  await (Awaiting 1) (calls (shutdown w)) = Some (Thrown shuttingDownError).
Proof.
  intros stringify t w b.
  assert (Hb : In b (liveCommands w)) by (simpl; tauto).
  split; [exact Hb|].
  exact (proj1 (shutdown_answers_every_open_caller stringify DEFAULT_BRIDGE_CONFIG t b Hb)).
Defined.

Lemma executeCommand_answers_at_once_only_when_disconnected_witness :
  let stringify := fun d : option string => match d with Some s => s | None => "null"%string end in
  let off := executeCommand stringify "ping" [] 5 "a" 5 (run (start DEFAULT_BRIDGE_CONFIG) []) in
  let on := executeCommand stringify "ping" [] 5 "a" 5
              (run (start DEFAULT_BRIDGE_CONFIG) [OpHeartbeat 0 None None]) in
  (isConnected (queue (run (start DEFAULT_BRIDGE_CONFIG) [])) 5 = false /\
   fst off [] = Some (mkToolResult [bridgeErrorText notConnectedError])) /\
  (isConnected (queue (run (start DEFAULT_BRIDGE_CONFIG) [OpHeartbeat 0 None None])) 5 = true /\
   fst on (calls (snd on)) = None).
Proof.
  intros stringify off on. split.
  - split; [reflexivity|].
    apply (proj1 (executeCommand_answers_at_once_only_when_disconnected stringify
                    DEFAULT_BRIDGE_CONFIG [] "ping" [] 5 "a" 5) eq_refl).
  - split; [reflexivity|].
    apply (proj2 (executeCommand_answers_at_once_only_when_disconnected stringify
                    DEFAULT_BRIDGE_CONFIG [OpHeartbeat 0 None None] "ping" [] 5 "a" 5) eq_refl).
Defined.



(** ** The routes *)







(** ** The port *)

(** X17.  Whatever [MCP_BRIDGE_PORT] holds, the port [main] configures is a
    port number, strictly between 0 and 65536: it is the default 3001 unless
    the variable is a non-empty string that [parseInt] reads as a number in
    that range, and then it is that number. *)
Theorem bridgePort_is_a_port_number env :
  0 < bridgePort env < 65536 /\
  (bridgePort env = DEFAULT_BRIDGE_PORT \/
   exists s, env = Some s /\ s <> [] /\ parseInt10 s = Some (bridgePort env)) /\
  (forall s port, env = Some s -> s <> [] -> parseInt10 s = Some port ->
     0 < port < 65536 -> bridgePort env = port).
Proof.
  assert (Hd : 0 < DEFAULT_BRIDGE_PORT < 65536) by (unfold DEFAULT_BRIDGE_PORT; lia).
  split; [|split].
  - destruct env as [[|c s]|]; simpl; try exact Hd.
    destruct (parseInt10 (c :: s)) as [port|]; [|exact Hd].
    destruct (0 <? port) eqn:E1; simpl; [|exact Hd].
    destruct (port <? 65536) eqn:E2; [|exact Hd].
    apply Z.ltb_lt in E1, E2. lia.
  - destruct env as [[|c s]|]; simpl; try (now left).
    destruct (parseInt10 (c :: s)) as [port|] eqn:E; [|now left].
    destruct ((0 <? port) && (port <? 65536))%bool; [|now left].
    right. exists (c :: s). split; [reflexivity|]. split; [discriminate | exact E].
  - intros s port -> Hne E [H1 H2]. destruct s as [|c s]; [contradiction|].
    simpl. rewrite E.
    apply Z.ltb_lt in H1, H2. now rewrite H1, H2.
Qed.

Lemma bridgePort_is_a_port_number_witness :
  let env := Some [52; 48; 48; 48]%N in
  parseInt10 [52; 48; 48; 48]%N = Some 4000 /\
  0 < 4000 < 65536 /\
  bridgePort env = 4000 /\
  bridgePort (Some [55; 48; 48; 48; 48]%N) = 3001.
Proof.
  intros env.
  assert (E : parseInt10 [52; 48; 48; 48]%N = Some 4000) by reflexivity.
  assert (R : 0 < 4000 < 65536) by lia.
  split; [exact E|]. split; [exact R|]. split.
  - apply (proj2 (proj2 (bridgePort_is_a_port_number env)) [52; 48; 48; 48]%N 4000
             eq_refl ltac:(discriminate) E R).
  - reflexivity.
Defined.

Lemma parseDigits_stops junk j : forall s acc seen,
  digitValue j = None ->
  parseDigits acc seen (s ++ j :: junk) = parseDigits acc seen s.
Proof.
  induction s as [|c s IH]; intros acc seen Hj; simpl.
  - now rewrite Hj.
  - destruct (digitValue c); [now apply IH | reflexivity].
Qed.

Lemma parseDigits_seen : forall s acc, snd (parseDigits acc true s) = true.
Proof.
  induction s as [|c s IH]; intros acc; simpl; [reflexivity|].
  destruct (digitValue c); [apply IH | reflexivity].
Qed.

Lemma trimStart_app s tail : trimStart s <> [] -> trimStart (s ++ tail) = trimStart s ++ tail.
Proof.
  induction s as [|c s IH]; simpl; [congruence|].
  destruct (isStrWhiteSpaceChar c); [exact IH | reflexivity].
Qed.

(** X18.  [parseInt] reads the leading number and ignores what follows it:
    if [MCP_BRIDGE_PORT] reads as a number, appending anything that starts
    with a character other than a digit changes neither what is read nor the
    port configured. *)
Theorem bridgePort_ignores_what_follows_the_number s value j junk :
  parseInt10 s = Some value ->
  digitValue j = None ->
  parseInt10 (s ++ j :: junk) = Some value /\
  bridgePort (Some (s ++ j :: junk)) = bridgePort (Some s).
Proof.
  intros Hs Hj.
  assert (Hp : parseInt10 (s ++ j :: junk) = parseInt10 s).
  { unfold parseInt10 in *.
    assert (Ht : trimStart s <> []).
    { intros E. rewrite E in Hs. simpl in Hs. discriminate. }
    rewrite trimStart_app by assumption.
    destruct (trimStart s) as [|c rest]; [contradiction|]. simpl app. cbv beta iota.
    destruct (N.eqb c 45); [|destruct (N.eqb c 43)]; cbv beta iota.
    - now rewrite parseDigits_stops.
    - now rewrite parseDigits_stops.
    - change (c :: rest ++ j :: junk) with ((c :: rest) ++ j :: junk).
      now rewrite parseDigits_stops. }
  split; [now rewrite Hp|].
  assert (Hne : s <> []) by (intros ->; discriminate).
  destruct s as [|c s]; [contradiction|]. simpl app.
  unfold bridgePort. change (c :: s ++ j :: junk) with ((c :: s) ++ j :: junk).
  now rewrite Hp.
Qed.

Lemma bridgePort_ignores_what_follows_the_number_witness :
  parseInt10 [32; 43; 56; 48]%N = Some 80 /\
  digitValue 120 = None /\
  parseInt10 ([32; 43; 56; 48] ++ 120 :: [49; 50])%N = Some 80 /\
  bridgePort (Some ([32; 43; 56; 48] ++ 120 :: [49; 50])%N) = 80.
Proof.
  assert (E : parseInt10 [32; 43; 56; 48]%N = Some 80) by reflexivity.
  assert (J : digitValue 120 = None) by reflexivity.
  destruct (bridgePort_ignores_what_follows_the_number [32; 43; 56; 48]%N 80 120%N
              [49; 50]%N E J) as [H1 H2].
  split; [exact E|]. split; [exact J|]. split; [exact H1|].
  rewrite H2. reflexivity.
Defined.

(** ** The order of the waiting queue *)

Lemma StronglySorted_filter {A : Type} (R : A -> A -> Prop) (f : A -> bool) (l : list A) :
  StronglySorted R l -> StronglySorted R (filter f l).
Proof.
  induction 1 as [|x l Hs IH Hall]; simpl; [constructor|].
  destruct (f x); [|exact IH]. constructor; [exact IH|].
  rewrite Forall_forall in *. intros y Hy. apply Hall.
  apply filter_In in Hy. tauto.
Qed.

Lemma StronglySorted_snoc {A : Type} (R : A -> A -> Prop) (l : list A) (x : A) :
  StronglySorted R l -> Forall (fun y => R y x) l -> StronglySorted R (l ++ [x]).
Proof.
  induction 1 as [|y l Hs IH Hall]; intros Hx; simpl.
  - constructor; constructor.
  - inversion Hx; subst. constructor; [now apply IH|].
    apply Forall_app. split; [assumption | now constructor].
Qed.

Lemma waiting_order_step w o :
  StronglySorted lt (map PendingCommand.promise (waitingQueue (queue w))) /\
  Forall (fun p => (p < promiseCount w)%nat)
    (map PendingCommand.promise (waitingQueue (queue w))) ->
  StronglySorted lt (map PendingCommand.promise (waitingQueue (queue (step w o)))) /\
  Forall (fun p => (p < promiseCount (step w o))%nat)
    (map PendingCommand.promise (waitingQueue (queue (step w o)))).
Proof.
  intros [Hs Hb].
  destruct o as [ty ps n1 u n2| |r|n v s|n|]; cbn [step].
  - unfold enqueue. destruct (isConnected (queue w) n1); simpl; [|now split].
    rewrite map_app. simpl. split.
    + now apply StronglySorted_snoc.
    + apply Forall_app. split.
      * eapply Forall_impl; [|exact Hb]. simpl. lia.
      * repeat constructor.
  - unfold dequeue. destruct (waitingQueue (queue w)) as [|c rest] eqn:E; simpl;
      [rewrite E; now split|].
    simpl in Hs, Hb. inversion Hs; subst. inversion Hb; subst. now split.
  - unfold resolve.
    destruct (JsMap.get (CommandResult.id r) (pendingCommands (queue w))); simpl; now split.
  - now split.
  - destruct (timeoutInterval (queue w)); [|now split].
    destruct (sweep_frame n w) as (_ & -> & _).
    unfold sweep. rewrite rejectEach_spec.
    match goal with |- context [sweepPending n ?e ?w0] =>
      destruct (sweepPending_frame n e w0) as (_ & _ & -> & _) end.
    simpl.
    set (keep := fun cmd => negb (expired (config (queue w)) n cmd)).
    split.
    + clear Hb. induction (waitingQueue (queue w)) as [|c l IH]; simpl; [constructor|].
      simpl in Hs. inversion Hs as [|? ? Hs' Hall]; subst.
      destruct (keep c); simpl; [|now apply IH].
      constructor; [now apply IH|].
      rewrite Forall_forall in *. intros p Hp. apply Hall.
      apply in_map_iff in Hp as (c' & <- & Hc'). apply filter_In in Hc' as [Hc' _].
      now apply in_map.
    + rewrite Forall_forall in *. intros p Hp. apply Hb.
      apply in_map_iff in Hp as (c' & <- & Hc'). apply filter_In in Hc' as [Hc' _].
      now apply in_map.
  - rewrite shutdown_spec. simpl. split; constructor.
Qed.

Lemma waiting_order_run t : forall w,
  StronglySorted lt (map PendingCommand.promise (waitingQueue (queue w))) /\
  Forall (fun p => (p < promiseCount w)%nat)
    (map PendingCommand.promise (waitingQueue (queue w))) ->
  StronglySorted lt (map PendingCommand.promise (waitingQueue (queue (run w t)))) /\
  Forall (fun p => (p < promiseCount (run w t))%nat)
    (map PendingCommand.promise (waitingQueue (queue (run w t)))).
Proof.
  induction t as [|o t IH]; intros w H; [exact H|].
  rewrite run_cons. apply IH. now apply waiting_order_step.
Qed.

(** X19.  The waiting queue always lists its commands in the order they were
    enqueued, whatever sweeps, deliveries and results have come in between
    and whatever identifiers [uuidv4()] returned: the command [dequeue] hands
    out next is older than every command it leaves waiting. *)
Theorem waiting_queue_keeps_enqueue_order cfg t :
  let w := run (start cfg) t in
  StronglySorted lt (map PendingCommand.promise (waitingQueue (queue w))) /\
  (forall c rest, waitingQueue (queue w) = c :: rest ->
     fst (dequeue w) = Some (serialize c) /\
     forall c', In c' (waitingQueue (queue (snd (dequeue w)))) ->
       (PendingCommand.promise c < PendingCommand.promise c')%nat).
Proof.
  intros w.
  assert (H : StronglySorted lt (map PendingCommand.promise (waitingQueue (queue w))) /\
              Forall (fun p => (p < promiseCount w)%nat)
                (map PendingCommand.promise (waitingQueue (queue w)))).
  { unfold w. apply waiting_order_run. simpl. split; constructor. }
  destruct H as [Hs _]. split; [exact Hs|].
  intros c rest E. rewrite (dequeue_head w c rest E). simpl. split; [reflexivity|].
  rewrite E in Hs. simpl in Hs. inversion Hs as [|? ? _ Hall]; subst.
  rewrite Forall_forall in Hall. intros c' Hc'. apply Hall. now apply in_map.
Qed.

Lemma waiting_queue_keeps_enqueue_order_witness :
  let t := [OpHeartbeat 0 None None; OpEnqueue "ping" [] 0 "a" 0;
            OpHeartbeat 39000 None None;
            OpEnqueue "pong" [] 40000 "b" 40000; OpEnqueue "peng" [] 40001 "c" 40001;
            OpTick 40002] in
  let w := run (start DEFAULT_BRIDGE_CONFIG) t in
  let b := PendingCommand.mk "b" "pong" [] 1 40000 in
  let c := PendingCommand.mk "c" "peng" [] 2 40001 in
  waitingQueue (queue w) = [b; c] /\
  fst (dequeue w) = Some (serialize b) /\
  (PendingCommand.promise b < PendingCommand.promise c)%nat.
Proof.
  intros t w b c.
  assert (E : waitingQueue (queue w) = [b; c]) by reflexivity.
  destruct (proj2 (waiting_queue_keeps_enqueue_order DEFAULT_BRIDGE_CONFIG t) b [c] E)
    as [H1 H2].
  split; [exact E|]. split; [exact H1|].
  apply H2. vm_compute. now left.
Defined.
